(** * GameEngine: the state resolution engine of a two-player combat game

    A shallow embedding of [game_engine.py]: the per-player attribute
    dictionaries, the merge of partial updates
    ([update_internal_game_state]), the action resolver ([perform_action])
    and the message router ([process_message]), followed by the properties
    of the specification that they satisfy or break.

    Python raises where it raises: a missing dictionary key is a
    [KeyError], an ordering comparison or an arithmetic operation on a
    string or on [None] is a [TypeError].  The dictionaries are mutated in
    place, so whatever was written before an exception stays written: the
    monad below returns the state also on the error path. *)

From Stdlib Require Import ZArith Lia.
From stdpp Require Import base option strings pretty gmap.

Local Open Scope Z_scope.

(** ** JSON values as Python sees them

    The attribute values come from [json.loads].  Integers, booleans,
    strings and [None] are covered.  Floats, lists and nested objects are
    not: wherever a statement below needs an attribute to be a number it
    asks for an integer ([as_int]), and a float in that place is outside
    the statement.  The debug output of the engine is not represented
    either. *)

Inductive value : Type :=
  | VNull
  | VBool (b : bool)
  | VInt (n : Z)
  | VStr (s : string).

Global Instance value_eq_dec : EqDecision value.
Proof. solve_decision. Defined.

Inductive error : Type :=
  | KeyError (key : string)
  | TypeError.

Inductive Res (A : Type) : Type :=
  | Ok (a : A)
  | Raise (e : error).
Arguments Ok {A} a.
Arguments Raise {A} e.

(** [bool] is a subclass of [int] in Python: [True] counts as 1. *)
Definition as_int (v : value) : option Z :=
  match v with
  | VInt n => Some n
  | VBool b => Some (Z.b2z b)
  | VNull | VStr _ => None
  end.

(** [bool(v)], the test of an [if]. *)
Definition truthy (v : value) : bool :=
  match v with
  | VNull => false
  | VBool b => b
  | VInt n => negb (n =? 0)
  | VStr s => negb (String.eqb s "")
  end.

(** [str(v)], as an f-string formats it. *)
Definition str (v : value) : string :=
  match v with
  | VNull => "None"
  | VBool true => "True"
  | VBool false => "False"
  | VInt n => pretty n
  | VStr s => s
  end.

(** [v == 'literal'] and [v == n]: equality never raises. *)
Definition eq_str (v : value) (lit : string) : bool :=
  match v with
  | VStr s => String.eqb s lit
  | _ => false
  end.

Definition eq_int (v : value) (n : Z) : bool :=
  match as_int v with
  | Some x => x =? n
  | None => false
  end.

(** ** The engine and its monad *)

Abbreviation Player := (gmap string value).

(** [self.game_state]: the outer dictionary is built with the two keys
    ['p1'] and ['p2'] and never gains or loses a key. *)
Record GameState : Type := { p1 : Player; p2 : Player }.

(** A message body handed to [json.dumps]; [None] is an absent key. *)
Record Message : Type := {
  msg_game_state : GameState;
  msg_action : option value;
  msg_player_id : option value
}.

(** The engine: its game state and what it has published so far on the
    RabbitMQ queue [update_eval_server_queue] and on the MQTT topic
    [update_everyone] (oldest first). *)
Record GameEngine : Type := {
  game_state : GameState;
  update_eval_server_queue : list Message;
  update_everyone : list Message
}.

(** A reference to one of the two player dictionaries. *)
Inductive PlayerRef : Type := P1 | P2.

Global Instance PlayerRef_eq_dec : EqDecision PlayerRef.
Proof. solve_decision. Defined.

Definition deref (r : PlayerRef) (gs : GameState) : Player :=
  match r with P1 => p1 gs | P2 => p2 gs end.

Definition assign (r : PlayerRef) (d : Player) (gs : GameState) : GameState :=
  match r with
  | P1 => {| p1 := d; p2 := p2 gs |}
  | P2 => {| p1 := p1 gs; p2 := d |}
  end.

Definition with_game_state (f : GameState → GameState) (e : GameEngine)
  : GameEngine :=
  {| game_state := f (game_state e);
     update_eval_server_queue := update_eval_server_queue e;
     update_everyone := update_everyone e |}.

(** The attribute [a] of player [r], if the key is there, and its reading
    as an integer. *)
Definition attr (e : GameEngine) (r : PlayerRef) (a : string) : option value :=
  deref r (game_state e) !! a.

Definition num (e : GameEngine) (r : PlayerRef) (a : string) : option Z :=
  attr e r a ≫= as_int.

(** The engine after [d[a] = v] and after [d.update(other)], where [d] is
    the dictionary that [r] refers to. *)
Definition set_attr (r : PlayerRef) (a : string) (v : value) : GameEngine → GameEngine :=
  with_game_state (λ gs, assign r (<[a := v]> (deref r gs)) gs).

Definition merge_attrs (r : PlayerRef) (other : Player) : GameEngine → GameEngine :=
  with_game_state (λ gs, assign r (other ∪ deref r gs) gs).

Definition M (A : Type) : Type := GameEngine → Res A * GameEngine.

Definition ret {A} (a : A) : M A := λ e, (Ok a, e).

Definition raise {A} (err : error) : M A := λ e, (Raise err, e).

Definition bind {A B} (m : M A) (k : A → M B) : M B :=
  λ e, match m e with
       | (Ok a, e') => k a e'
       | (Raise err, e') => (Raise err, e')
       end.

Notation "x <- m ;; k" := (bind m (λ x, k))
  (at level 100, m at next level, k at level 200, right associativity).
Notation "m ;;; k" := (bind m (λ _, k))
  (at level 100, k at level 200, right associativity).

Definition of_option {A} (o : option A) (err : error) : M A :=
  match o with Some a => ret a | None => raise err end.

(** [self.game_state[key]] *)
Definition game_state_getitem (key : string) : M PlayerRef :=
  if decide (key = "p1") then ret P1
  else if decide (key = "p2") then ret P2
  else raise (KeyError key).

(** [d[a]], [d.get(a, dflt)], [d[a] = v] and [d.update(other)] on the
    dictionary that [r] refers to. *)
Definition getitem (r : PlayerRef) (a : string) : M value :=
  λ e, of_option (attr e r a) (KeyError a) e.

Definition get (r : PlayerRef) (a : string) (dflt : value) : M value :=
  λ e, (Ok (default dflt (attr e r a)), e).

Definition setitem (r : PlayerRef) (a : string) (v : value) : M unit :=
  λ e, (Ok tt, set_attr r a v e).

Definition update (r : PlayerRef) (other : Player) : M unit :=
  λ e, (Ok tt, merge_attrs r other e).

(** [v > n], [v <= n], [v - n] and [v + n] for an integer [n]: a
    [TypeError] unless [v] is an integer of the value universe. *)
Definition gt (v : value) (n : Z) : M bool :=
  x <- of_option (as_int v) TypeError ;; ret (n <? x).

Definition le (v : value) (n : Z) : M bool :=
  x <- of_option (as_int v) TypeError ;; ret (x <=? n).

Definition sub (v : value) (n : Z) : M value :=
  x <- of_option (as_int v) TypeError ;; ret (VInt (x - n)).

Definition add (v : value) (n : Z) : M value :=
  x <- of_option (as_int v) TypeError ;; ret (VInt (x + n)).

Fixpoint for_each {A} (l : list A) (body : A → M unit) : M unit :=
  match l with
  | [] => ret tt
  | x :: l' => body x ;;; for_each l' body
  end.

(** ** The state at engine start *)

Definition new_player : Player :=
  <["hp" := VInt 100]> (<["bullets" := VInt 6]> (<["bombs" := VInt 2]>
  (<["shield_hp" := VInt 0]> (<["deaths" := VInt 0]> (<["shields" := VInt 3]>
  (<["opponent_visible" := VBool false]> (<["opponent_in_rain_bomb" := VInt 0]>
  (<["disconnected" := VBool false]> (<["login" := VBool false]> ∅))))))))).

Definition init : GameEngine :=
  {| game_state := {| p1 := new_player; p2 := new_player |};
     update_eval_server_queue := [];
     update_everyone := [] |}.

(** ** Inbound events

    The decoded message body, a JSON object.  Every key is optional;
    [game_state], when present, maps player keys to partial attribute
    dictionaries (a body or a [game_state] of another shape is not
    represented). *)

Record InboundEvent : Type := {
  ev_update : option value;
  ev_action : option value;
  ev_player_id : option value;
  ev_action_type : option value;
  ev_hit : option value;
  ev_game_state : option (gmap string Player)
}.

(** ** update_internal_game_state (lines 133 to 137) *)

Definition update_internal_game_state (incoming_game_state : gmap string Player)
  : M unit :=
  for_each ["p1"; "p2"]%string (λ player_key,
    match incoming_game_state !! player_key with
    | Some partial =>
        player <- game_state_getitem player_key ;;
        update player partial
    | None => ret tt
    end).

(** ** perform_action (lines 139 to 214)

    The body is cut at its own comments into the action step, the rain
    damage, the shield step and the HP step; [perform_action] below is
    their sequence.  With the integers of the value universe
    [damage_to_opponent] is an [int] throughout (0, 5 or 10, plus five
    times the rain-bomb counter), so it is a [Z] here. *)

(** Lines 156 to 188, the chain of [if]/[elif] on [action_type]; the
    result is [damage_to_opponent]. *)
Definition handle_action (player : PlayerRef) (action_type hit opponent_visible : value)
  : M Z :=
  if eq_str action_type "gun" then
    bullets <- getitem player "bullets" ;;
    has_ammo <- gt bullets 0 ;;
    if has_ammo : bool then
      bullets' <- sub bullets 1 ;;
      setitem player "bullets" bullets' ;;;
      ret (if truthy hit then 5 else 0)
    else ret 0
  else if eq_str action_type "bomb" then
    bombs <- getitem player "bombs" ;;
    has_bombs <- gt bombs 0 ;;
    if has_bombs && truthy opponent_visible then
      bombs' <- sub bombs 1 ;;
      setitem player "bombs" bombs' ;;;
      ret 5
    else ret 0
  else if eq_str action_type "reload" then
    bullets <- getitem player "bullets" ;;
    if eq_int bullets 0 then
      setitem player "bullets" (VInt 6) ;;;
      ret 0
    else ret 0
  else if eq_str action_type "shield" then
    shields <- getitem player "shields" ;;
    has_shields <- gt shields 0 ;;
    if has_shields : bool then
      shield_hp <- getitem player "shield_hp" ;;
      if eq_int shield_hp 0 then
        shields' <- sub shields 1 ;;
        setitem player "shields" shields' ;;;
        setitem player "shield_hp" (VInt 30) ;;;
        ret 0
      else ret 0
    else ret 0
  else if eq_str action_type "logout" then
    setitem player "login" (VBool false) ;;;
    ret 0
  else if eq_str action_type "basket" || eq_str action_type "volley"
          || eq_str action_type "soccer" || eq_str action_type "bowl" then
    ret (if truthy opponent_visible then 10 else 0)
  else ret 0.

(** Lines 189 to 191:
    [if opponent_in_rain_bomb > 0 and opponent_visible:
       damage_to_opponent += 5 * opponent_in_rain_bomb] *)
Definition handle_rain_damage (opponent_in_rain_bomb opponent_visible : value)
    (damage_to_opponent : Z) : M Z :=
  in_rain <- gt opponent_in_rain_bomb 0 ;;
  if in_rain && truthy opponent_visible then
    n <- of_option (as_int opponent_in_rain_bomb) TypeError ;;
    ret (damage_to_opponent + 5 * n)
  else ret damage_to_opponent.

(** Lines 193 to 201: the opponent's shield takes the damage first; the
    result is [(damage_to_shield, damage_to_opponent)]. *)
Definition apply_shield_damage (opponent : PlayerRef) (damage_to_opponent : Z)
  : M (Z * Z) :=
  shield_hp <- getitem opponent "shield_hp" ;;
  shielded <- gt shield_hp 0 ;;
  if shielded : bool then
    if 0 <? damage_to_opponent then
      s <- of_option (as_int shield_hp) TypeError ;;
      let damage_to_shield := Z.min damage_to_opponent s in
      shield_hp' <- sub shield_hp damage_to_shield ;;
      setitem opponent "shield_hp" shield_hp' ;;;
      ret (damage_to_shield, damage_to_opponent - damage_to_shield)
    else ret (0, damage_to_opponent)
  else
    setitem opponent "shield_hp" (VInt 0) ;;;
    ret (0, damage_to_opponent).

(** [opponent['hp'] -= damage_to_opponent] *)
Definition deduct_hp (opponent : PlayerRef) (damage_to_opponent : Z) : M unit :=
  hp <- getitem opponent "hp" ;;
  hp' <- sub hp damage_to_opponent ;;
  setitem opponent "hp" hp'.

(** Lines 208 to 213, the six assignments of a rebirth. *)
Definition respawn (opponent : PlayerRef) : M unit :=
  setitem opponent "hp" (VInt 100) ;;;
  deaths <- getitem opponent "deaths" ;;
  deaths' <- add deaths 1 ;;
  setitem opponent "deaths" deaths' ;;;
  setitem opponent "shields" (VInt 3) ;;;
  setitem opponent "shield_hp" (VInt 0) ;;;
  setitem opponent "bullets" (VInt 6) ;;;
  setitem opponent "bombs" (VInt 2).

(** Lines 203 to 214: what is left of the damage goes to the opponent's
    HP, and the rebirth test sits inside the test for damage. *)
Definition apply_hp_damage (opponent : PlayerRef) (damage_to_opponent : Z)
  : M unit :=
  if 0 <? damage_to_opponent then
    deduct_hp opponent damage_to_opponent ;;;
    hp <- getitem opponent "hp" ;;
    dead <- le hp 0 ;;
    if dead : bool then respawn opponent else ret tt
  else ret tt.

Definition player_key_of (player_id : value) : string := "p" +:+ str player_id.

Definition opponent_key_of (player_key : string) : string :=
  if decide (player_key = "p2") then "p1" else "p2".

(** Lines 141 to 191: the two dictionaries are looked up, the action is
    applied to the actor and the damage total is computed; the result is
    the opponent and [damage_to_opponent].  [opponent_visible] and the
    rain-bomb counter are read before the action step. *)
Definition compute_damage (player_id action_type : value) (data : InboundEvent)
  : M (PlayerRef * Z) :=
  let player_key := player_key_of player_id in
  let opponent_key := opponent_key_of player_key in
  player <- game_state_getitem player_key ;;
  opponent <- game_state_getitem opponent_key ;;
  opponent_visible <- get player "opponent_visible" (VBool false) ;;
  opponent_in_rain_bomb <- get player "opponent_in_rain_bomb" (VInt 0) ;;
  let hit := default (VBool false) (ev_hit data) in
  damage_to_opponent <- handle_action player action_type hit opponent_visible ;;
  damage_to_opponent <-
    handle_rain_damage opponent_in_rain_bomb opponent_visible damage_to_opponent ;;
  ret (opponent, damage_to_opponent).

Definition perform_action (player_id action_type : value) (data : InboundEvent)
  : M unit :=
  od <- compute_damage player_id action_type data ;;
  sd <- apply_shield_damage od.1 od.2 ;;
  apply_hp_damage od.1 sd.2.

(** ** process_message (lines 216 to 267)

    A publication appends the message to what its sink has received; the
    message holds the game state as [json.dumps] sees it at that moment.
    Failures of the transport are not represented. *)

Definition snapshot : M GameState := λ e, (Ok (game_state e), e).

Definition publish_to_update_eval_server_queue (message : Message) : M unit :=
  λ e, (Ok tt,
        {| game_state := game_state e;
           update_eval_server_queue := update_eval_server_queue e ++ [message];
           update_everyone := update_everyone e |}).

Definition mqtt_publish (message : Message) : M unit :=
  λ e, (Ok tt,
        {| game_state := game_state e;
           update_eval_server_queue := update_eval_server_queue e;
           update_everyone := update_everyone e ++ [message] |}).

Definition process_message (data : InboundEvent) : M unit :=
  let action_performed := default (VBool false) (ev_action data) in
  let to_update := default (VBool false) (ev_update data) in
  let player_id := default VNull (ev_player_id data) in
  let action_type := default VNull (ev_action_type data) in
  let incoming_game_state := default ∅ (ev_game_state data) in
  update_internal_game_state incoming_game_state ;;;
  if truthy action_performed then
    perform_action player_id action_type data ;;;
    gs <- snapshot ;;
    let mqtt_message :=
      {| msg_game_state := gs;
         msg_action := Some action_type;
         msg_player_id := Some player_id |} in
    publish_to_update_eval_server_queue mqtt_message ;;;
    mqtt_publish mqtt_message
  else if truthy to_update then
    gs <- snapshot ;;
    let mqtt_message :=
      {| msg_game_state := gs; msg_action := None; msg_player_id := None |} in
    mqtt_publish mqtt_message
  else ret tt.

(** ** Vocabulary of the properties *)

Definition other (r : PlayerRef) : PlayerRef :=
  match r with P1 => P2 | P2 => P1 end.

Definition key_of (r : PlayerRef) : string :=
  match r with P1 => "p1" | P2 => "p2" end.

(** The action types that [perform_action] dispatches on. *)
Definition vocabulary : list string :=
  ["gun"; "bomb"; "reload"; "shield"; "logout";
   "basket"; "volley"; "soccer"; "bowl"]%string.

(** The attributes an action may write on the actor, and the ones damage
    and rebirth may write on the opponent. *)
Definition actor_attrs : list string :=
  ["bullets"; "bombs"; "shields"; "shield_hp"; "login"]%string.

Definition respawn_attrs : list string :=
  ["hp"; "deaths"; "shields"; "shield_hp"; "bullets"; "bombs"]%string.

(** The engine after the six assignments of a rebirth of [r] whose death
    counter read [n]. *)
Definition respawned (r : PlayerRef) (n : Z) (e : GameEngine) : GameEngine :=
  set_attr r "bombs" (VInt 2) (set_attr r "bullets" (VInt 6)
  (set_attr r "shield_hp" (VInt 0) (set_attr r "shields" (VInt 3)
  (set_attr r "deaths" (VInt (n + 1)) (set_attr r "hp" (VInt 100) e))))).

(** The engine after the merge of what the incoming data holds, if
    anything, for player [r]. *)
Definition merged_player (r : PlayerRef) (partial : option Player) (e : GameEngine)
  : GameEngine :=
  match partial with
  | Some d => merge_attrs r d e
  | None => e
  end.

Definition same_sinks (e e' : GameEngine) : Prop :=
  update_eval_server_queue e' = update_eval_server_queue e
  ∧ update_everyone e' = update_everyone e.

(** [only_writes W e e']: from [e] to [e'] nothing was published and no
    attribute outside [W] changed. *)
Definition only_writes (W : PlayerRef → string → Prop) (e e' : GameEngine) : Prop :=
  same_sinks e e' ∧ ∀ r a, ¬ W r a → attr e' r a = attr e r a.

(** [deaths_grow e e']: every numeric death counter of [e] is still
    numeric in [e'] and not smaller. *)
Definition deaths_grow (e e' : GameEngine) : Prop :=
  ∀ r n, num e r "deaths" = Some n →
         ∃ n', num e' r "deaths" = Some n' ∧ n ≤ n'.

(** [m] relates every start state to its end state by [R], whether it
    returns or raises. *)
Definition preserves (R : relation GameEngine) {A} (m : M A) : Prop :=
  ∀ e, R e (m e).2.

(** The numeric attributes are there and hold integers ([int] or [bool]),
    and the rain-bomb counter, when there, holds an integer. *)
Definition well_typed (e : GameEngine) : Prop :=
  ∀ r, (∀ a, a ∈ respawn_attrs → is_Some (num e r a))
       ∧ (∀ v, attr e r "opponent_in_rain_bomb" = Some v → is_Some (as_int v)).

(** [e'] is well typed if [e] was. *)
Definition typed_step (e e' : GameEngine) : Prop := well_typed e → well_typed e'.

(** ** Concrete events and states *)

(** An action event without a partial game state. *)
Definition action_event (player_id action_type : value) (hit : option value)
  : InboundEvent :=
  {| ev_update := None;
     ev_action := Some (VBool true);
     ev_player_id := Some player_id;
     ev_action_type := Some action_type;
     ev_hit := hit;
     ev_game_state := None |}.

(** Player 1 sees player 2, who holds a shield with 10 points left. *)
Definition shielded_opponent : GameEngine :=
  set_attr P2 "shield_hp" (VInt 10) (set_attr P1 "opponent_visible" (VBool true) init).

(** Player 2 is down to 5 HP. *)
Definition weak_opponent : GameEngine := set_attr P2 "hp" (VInt 5) init.

(** Player 1 sees player 2 inside two rain bombs and has no bullet left. *)
Definition rainy : GameEngine :=
  set_attr P1 "bullets" (VInt 0) (set_attr P1 "opponent_in_rain_bomb" (VInt 2)
  (set_attr P1 "opponent_visible" (VBool true) init)).


(** A merge has set player 2's HP to 0. *)
Definition knocked_out : GameEngine :=
  (update_internal_game_state {[ "p2"%string := {[ "hp"%string := VInt 0 ]} ]} init).2.

(** Player 1 strikes player 2, seen inside twenty rain bombs. *)
Definition deadly_strike : InboundEvent :=
  {| ev_update := None;
     ev_action := Some (VBool true);
     ev_player_id := Some (VInt 1);
     ev_action_type := Some (VStr "basket");
     ev_hit := None;
     ev_game_state :=
       Some {[ "p1"%string :=
                 {[ "opponent_visible"%string := VBool true;
                    "opponent_in_rain_bomb"%string := VInt 20 ]} ]} |}.

(** An update that carries a death counter of 0 for player 2. *)
Definition deaths_reset : gmap string Player :=
  {[ "p2"%string := {[ "deaths"%string := VInt 0 ]} ]}.

(** Player 2's shield was merged in as a negative number. *)
Definition negative_shield : GameEngine :=
  set_attr P2 "shield_hp" (VInt (-7)) init.

(** ** Vocabulary of the further properties *)

(** Two partial states merged into one: what the later one holds for a
    player goes over what the earlier one holds. *)
Definition merge_incoming (later earlier : gmap string Player) : gmap string Player :=
  union_with (λ d_later d_earlier, Some (d_later ∪ d_earlier)) later earlier.

(** Every attribute that is there in [e] is still there in [e']. *)
Definition keys_kept (e e' : GameEngine) : Prop :=
  ∀ r a, is_Some (attr e r a) → is_Some (attr e' r a).

(** The keys of a player's dictionary at engine start. *)
Definition initial_attrs : list string :=
  ["hp"; "bullets"; "bombs"; "shield_hp"; "deaths"; "shields";
   "opponent_visible"; "opponent_in_rain_bomb"; "disconnected"; "login"]%string.

(** What a resolution by [player] may write: the actor's own resources and
    session flag, and what damage and rebirth touch on the opponent. *)
Definition resolution_writes (player : PlayerRef) (r : PlayerRef) (a : string) : Prop :=
  (r = player ∧ a ∈ actor_attrs) ∨ (r = other player ∧ a ∈ respawn_attrs).

(** The states of the engine: the one it starts with, and the one it is
    left in by the message handler, whether the handler returned or raised,
    for any message on any state of the engine. *)
Inductive reachable : GameEngine → Prop :=
  | reachable_init : reachable init
  | reachable_step data e : reachable e → reachable (process_message data e).2.

(** What the sinks have received only grows, at the end. *)
Definition sinks_grow (e e' : GameEngine) : Prop :=
  (∃ l, update_eval_server_queue e' = update_eval_server_queue e ++ l)
  ∧ (∃ l, update_everyone e' = update_everyone e ++ l).



(** Player 1's rain-bomb counter was merged in as a string. *)
Definition odd_counter : GameEngine :=
  (update_internal_game_state
     {[ "p1"%string := {[ "opponent_in_rain_bomb"%string := VStr "two" ]} ]} init).2.

(** [e'] is [e]: what a computation that only reads satisfies. *)
Definition unchanged (e e' : GameEngine) : Prop := e' = e.





(** The engine with the dictionaries of the two players exchanged. *)
Definition swap_players (e : GameEngine) : GameEngine :=
  {| game_state := {| p1 := p2 (game_state e); p2 := p1 (game_state e) |};
     update_eval_server_queue := update_eval_server_queue e;
     update_everyone := update_everyone e |}.

(** [m'] does on the engine with the players exchanged what [m] does on
    the engine: the same result, and the end state with the players
    exchanged. *)
Definition mirrors {A} (m m' : M A) : Prop :=
  ∀ e, m' (swap_players e) = ((m e).1, swap_players (m e).2).


(** Player 2's shield is negative and player 1's rain-bomb counter is a
    string. *)
Definition negative_shield_odd_counter : GameEngine :=
  set_attr P1 "opponent_in_rain_bomb" (VStr "two") negative_shield.

(** From [e] to [e'] the [shield_hp] of [r] was left as it was or set to
    the integer 0. *)
Definition shield_kept_or_cleared (r : PlayerRef) (e e' : GameEngine) : Prop :=
  attr e' r "shield_hp" = attr e r "shield_hp"
  ∨ attr e' r "shield_hp" = Some (VInt 0).


(** * Properties *)

(** ** Reading and writing attributes *)

Lemma attr_set_attr e r a v r' a' :
  attr (set_attr r a v e) r' a'
  = if decide (r = r' ∧ a = a') then Some v else attr e r' a'.
Proof.
  unfold attr, set_attr.
  destruct (decide (r = r' ∧ a = a')) as [[<- <-]|Hne].
  - destruct r; simpl; apply lookup_insert_eq.
  - destruct r, r'; simpl; trivial; apply lookup_insert_ne; intros <-; now apply Hne.
Qed.

Lemma attr_set_attr_eq e r a v : attr (set_attr r a v e) r a = Some v.
Proof. rewrite attr_set_attr, decide_True; auto. Qed.

Lemma attr_set_attr_ne e r a v r' a' :
  r ≠ r' ∨ a ≠ a' → attr (set_attr r a v e) r' a' = attr e r' a'.
Proof. intros Hne. rewrite attr_set_attr, decide_False; tauto. Qed.

Lemma attr_merge_attrs e r partial r' a :
  attr (merge_attrs r partial e) r' a
  = if decide (r = r') then
      match partial !! a with Some v => Some v | None => attr e r' a end
    else attr e r' a.
Proof.
  unfold attr, merge_attrs.
  destruct (decide (r = r')) as [<-|Hne].
  - destruct r; simpl; rewrite lookup_union;
      destruct (partial !! a), (_ !! a); reflexivity.
  - destruct r, r'; simpl; congruence.
Qed.

Lemma num_set_attr_ne e r a v r' a' :
  r ≠ r' ∨ a ≠ a' → num (set_attr r a v e) r' a' = num e r' a'.
Proof. intros Hne. unfold num. now rewrite attr_set_attr_ne. Qed.

Lemma num_set_attr_int e r a n : num (set_attr r a (VInt n) e) r a = Some n.
Proof. unfold num. now rewrite attr_set_attr_eq. Qed.

Lemma num_Some e r a n :
  num e r a = Some n ↔ ∃ v, attr e r a = Some v ∧ as_int v = Some n.
Proof.
  unfold num. destruct (attr e r a) as [v|]; simpl; split.
  - eauto.
  - now intros (v' & [= <-] & Hv).
  - discriminate.
  - now intros (v' & [=] & _).
Qed.

(** Writing back what is already there changes nothing. *)
Lemma set_attr_id e r a v : attr e r a = Some v → set_attr r a v e = e.
Proof.
  unfold attr, set_attr, with_game_state. destruct e as [[d1 d2] q t], r; simpl;
    intros Hv; rewrite insert_id; done.
Qed.

Lemma same_sinks_set_attr e r a v : same_sinks e (set_attr r a v e).
Proof. split; reflexivity. Qed.

Lemma same_sinks_merge_attrs e r partial : same_sinks e (merge_attrs r partial e).
Proof. split; reflexivity. Qed.

(** ** Running the monad: what a normal return tells *)

Lemma bind_Ok {A B} (m : M A) (k : A → M B) e b e' :
  bind m k e = (Ok b, e') ↔ ∃ a e1, m e = (Ok a, e1) ∧ k a e1 = (Ok b, e').
Proof.
  unfold bind. destruct (m e) as [[a|err] e1]; split.
  - eauto.
  - now intros (a' & e1' & [= <- <-] & Hk).
  - discriminate.
  - now intros (a' & e1' & [=] & _).
Qed.

Lemma bind_run {A B} (m : M A) (k : A → M B) e a e1 :
  m e = (Ok a, e1) → bind m k e = k a e1.
Proof. unfold bind. now intros ->. Qed.

Lemma bind_raise {A B} (m : M A) (k : A → M B) e err e1 :
  m e = (Raise err, e1) → bind m k e = (Raise err, e1).
Proof. unfold bind. now intros ->. Qed.

Lemma ret_Ok {A} (a b : A) e e' : ret a e = (Ok b, e') ↔ b = a ∧ e' = e.
Proof. unfold ret. split; [now intros [= <- <-] | now intros [-> ->]]. Qed.

Lemma of_option_Ok {A} (o : option A) err e a e' :
  of_option o err e = (Ok a, e') ↔ o = Some a ∧ e' = e.
Proof.
  destruct o as [x|]; simpl; unfold ret, raise; split.
  - now intros [= <- <-].
  - now intros [[= <-] ->].
  - discriminate.
  - now intros [[=] _].
Qed.

Lemma getitem_Ok r a e v e' :
  getitem r a e = (Ok v, e') ↔ attr e r a = Some v ∧ e' = e.
Proof. unfold getitem. apply of_option_Ok. Qed.

Lemma get_Ok r a dflt e v e' :
  get r a dflt e = (Ok v, e') ↔ v = default dflt (attr e r a) ∧ e' = e.
Proof. unfold get. split; [now intros [= <- <-] | now intros [-> ->]]. Qed.

Lemma setitem_Ok r a v e u e' :
  setitem r a v e = (Ok u, e') ↔ e' = set_attr r a v e.
Proof. unfold setitem. destruct u. split; [now intros [= <-] | now intros ->]. Qed.

Lemma gt_Ok v n e b e' :
  gt v n e = (Ok b, e') ↔ ∃ x, as_int v = Some x ∧ b = (n <? x) ∧ e' = e.
Proof.
  unfold gt. rewrite bind_Ok. split.
  - intros (x & e1 & [Hx ->]%of_option_Ok & [-> ->]%ret_Ok). eauto.
  - intros (x & Hx & -> & ->). exists x, e. now rewrite of_option_Ok, ret_Ok.
Qed.

Lemma le_Ok v n e b e' :
  le v n e = (Ok b, e') ↔ ∃ x, as_int v = Some x ∧ b = (x <=? n) ∧ e' = e.
Proof.
  unfold le. rewrite bind_Ok. split.
  - intros (x & e1 & [Hx ->]%of_option_Ok & [-> ->]%ret_Ok). eauto.
  - intros (x & Hx & -> & ->). exists x, e. now rewrite of_option_Ok, ret_Ok.
Qed.

Lemma sub_Ok v n e w e' :
  sub v n e = (Ok w, e') ↔ ∃ x, as_int v = Some x ∧ w = VInt (x - n) ∧ e' = e.
Proof.
  unfold sub. rewrite bind_Ok. split.
  - intros (x & e1 & [Hx ->]%of_option_Ok & [-> ->]%ret_Ok). eauto.
  - intros (x & Hx & -> & ->). exists x, e. now rewrite of_option_Ok, ret_Ok.
Qed.

Lemma add_Ok v n e w e' :
  add v n e = (Ok w, e') ↔ ∃ x, as_int v = Some x ∧ w = VInt (x + n) ∧ e' = e.
Proof.
  unfold add. rewrite bind_Ok. split.
  - intros (x & e1 & [Hx ->]%of_option_Ok & [-> ->]%ret_Ok). eauto.
  - intros (x & Hx & -> & ->). exists x, e. now rewrite of_option_Ok, ret_Ok.
Qed.

(** One step of symbolic inversion of a run that returned normally. *)
Ltac inv_run_step :=
  match goal with
  | H : bind _ _ _ = (Ok _, _) |- _ =>
      apply bind_Ok in H as (? & ? & ? & H)
  | H : ret _ _ = (Ok _, _) |- _ => apply ret_Ok in H as [? ?]
  | H : of_option _ _ _ = (Ok _, _) |- _ => apply of_option_Ok in H as [? ?]
  | H : getitem _ _ _ = (Ok _, _) |- _ => apply getitem_Ok in H as [? ?]
  | H : get _ _ _ _ = (Ok _, _) |- _ => apply get_Ok in H as [? ?]
  | H : setitem _ _ _ _ = (Ok _, _) |- _ => apply setitem_Ok in H
  | H : gt _ _ _ = (Ok _, _) |- _ => apply gt_Ok in H as (? & ? & ? & ?)
  | H : le _ _ _ = (Ok _, _) |- _ => apply le_Ok in H as (? & ? & ? & ?)
  | H : sub _ _ _ = (Ok _, _) |- _ => apply sub_Ok in H as (? & ? & ? & ?)
  | H : add _ _ _ = (Ok _, _) |- _ => apply add_Ok in H as (? & ? & ? & ?)
  end.

Ltac inv_run := repeat (inv_run_step; subst).

(** ** Relations kept along every path, normal or exceptional *)

Section Preserves.
Context (R : relation GameEngine) `{!PreOrder R}.

Lemma preserves_ret {A} (a : A) : preserves R (ret a).
Proof. intros e. simpl. reflexivity. Qed.

Lemma preserves_raise {A} err : preserves R (@raise A err).
Proof. intros e. simpl. reflexivity. Qed.

Lemma preserves_bind {A B} (m : M A) (k : A → M B) :
  preserves R m → (∀ a, preserves R (k a)) → preserves R (bind m k).
Proof.
  intros Hm Hk e. unfold bind. specialize (Hm e).
  destruct (m e) as [[a|err] e1]; simpl in *; trivial.
  transitivity e1; [trivial | apply Hk].
Qed.

Lemma preserves_of_option {A} (o : option A) err : preserves R (of_option o err).
Proof. destruct o; [apply preserves_ret | apply preserves_raise]. Qed.

Lemma preserves_game_state_getitem key : preserves R (game_state_getitem key).
Proof.
  unfold game_state_getitem.
  repeat case_decide; auto using @preserves_ret, @preserves_raise.
Qed.

Lemma preserves_getitem r a : preserves R (getitem r a).
Proof. intros e. unfold getitem. apply preserves_of_option. Qed.

Lemma preserves_get r a dflt : preserves R (get r a dflt).
Proof. intros e. simpl. reflexivity. Qed.

Lemma preserves_gt v n : preserves R (gt v n).
Proof.
  apply preserves_bind; [apply preserves_of_option | intros; apply preserves_ret].
Qed.

Lemma preserves_le v n : preserves R (le v n).
Proof.
  apply preserves_bind; [apply preserves_of_option | intros; apply preserves_ret].
Qed.

Lemma preserves_sub v n : preserves R (sub v n).
Proof.
  apply preserves_bind; [apply preserves_of_option | intros; apply preserves_ret].
Qed.

Lemma preserves_add v n : preserves R (add v n).
Proof.
  apply preserves_bind; [apply preserves_of_option | intros; apply preserves_ret].
Qed.

End Preserves.

Lemma preserves_weaken (R R' : relation GameEngine) {A} (m : M A) :
  (∀ e e', R e e' → R' e e') → preserves R m → preserves R' m.
Proof. intros HR Hm e. apply HR, Hm. Qed.

Global Instance same_sinks_preorder : PreOrder same_sinks.
Proof.
  split.
  - intros e. split; reflexivity.
  - intros e1 e2 e3 [Hq Ht] [Hq' Ht']. split; congruence.
Qed.

Global Instance only_writes_preorder W : PreOrder (only_writes W).
Proof.
  split.
  - intros e. split; [reflexivity | trivial].
  - intros e1 e2 e3 [Hs H12] [Hs' H23]. split.
    + now transitivity e2.
    + intros r a Hw. now rewrite H23, H12.
Qed.

Global Instance deaths_grow_preorder : PreOrder deaths_grow.
Proof.
  split.
  - intros e r n Hn. exists n. split; [trivial | lia].
  - intros e1 e2 e3 H12 H23 r n Hn.
    destruct (H12 r n Hn) as (n2 & Hn2 & Hle).
    destruct (H23 r n2 Hn2) as (n3 & Hn3 & Hle').
    exists n3. split; [trivial | lia].
Qed.

Lemma only_writes_mono (W W' : PlayerRef → string → Prop) e e' :
  (∀ r a, W r a → W' r a) → only_writes W e e' → only_writes W' e e'.
Proof. intros HW [Hs Hf]. split; [trivial | intros r a Hn; apply Hf; auto]. Qed.

Lemma preserves_setitem_writes (W : PlayerRef → string → Prop) r a v :
  W r a → preserves (only_writes W) (setitem r a v).
Proof.
  intros Hw e. simpl. split; [apply same_sinks_set_attr |].
  intros r' a' Hn. apply attr_set_attr_ne.
  destruct (decide (r = r')) as [<-|]; [|now left].
  destruct (decide (a = a')) as [<-|]; [contradiction | now right].
Qed.

Lemma preserves_setitem_deaths r a v :
  a ≠ "deaths"%string → preserves deaths_grow (setitem r a v).
Proof.
  intros Ha e r' n Hn. exists n. split; [|lia]. simpl.
  rewrite num_set_attr_ne; auto.
Qed.

(** [opponent['deaths'] += 1] *)
Lemma preserves_increment_deaths r (k : M unit) :
  preserves deaths_grow k →
  preserves deaths_grow
    (deaths <- getitem r "deaths" ;; deaths' <- add deaths 1 ;;
     setitem r "deaths" deaths' ;;; k).
Proof.
  intros Hk e.
  destruct (attr e r "deaths") as [v|] eqn:Hv.
  2:{ erewrite bind_raise by (unfold getitem; rewrite Hv; reflexivity).
      reflexivity. }
  erewrite bind_run by (apply getitem_Ok; eauto).
  destruct (as_int v) as [n|] eqn:Hn.
  2:{ erewrite bind_raise
        by (unfold add; erewrite bind_raise by (rewrite Hn; reflexivity); reflexivity).
      reflexivity. }
  erewrite bind_run by (apply add_Ok; eauto).
  erewrite bind_run by reflexivity.
  transitivity (set_attr r "deaths" (VInt (n + 1)) e); [|apply Hk].
  intros r' m Hm. destruct (decide (r = r')) as [<-|Hne].
  - exists (n + 1). rewrite num_set_attr_int. split; [trivial|].
    unfold num in Hm. rewrite Hv in Hm. simpl in Hm. rewrite Hn in Hm.
    injection Hm as <-. lia.
  - exists m. rewrite num_set_attr_ne by now left. split; [trivial | lia].
Qed.

(** Decomposes a goal [preserves R m] along the syntax of [m]; [special]
    is tried first at every step and [leaf] settles the writes. *)
Ltac preserves_steps special leaf :=
  repeat first
    [ special
    | lazymatch goal with
      | |- preserves ?R (bind _ _) => apply (preserves_bind R); [| intros ?]
      | |- preserves ?R (ret _) => apply (preserves_ret R)
      | |- preserves ?R (raise _) => apply (preserves_raise R)
      | |- preserves ?R (of_option _ _) => apply (preserves_of_option R)
      | |- preserves ?R (game_state_getitem _) =>
          apply (preserves_game_state_getitem R)
      | |- preserves ?R (getitem _ _) => apply (preserves_getitem R)
      | |- preserves ?R (get _ _ _) => apply (preserves_get R)
      | |- preserves ?R (gt _ _) => apply (preserves_gt R)
      | |- preserves ?R (le _ _) => apply (preserves_le R)
      | |- preserves ?R (sub _ _) => apply (preserves_sub R)
      | |- preserves ?R (add _ _) => apply (preserves_add R)
      | |- preserves _ (setitem _ _ _) => leaf
      | |- preserves _ (if ?b then _ else _) => destruct b
      | |- preserves _ (let _ := _ in _) => cbv zeta
      end ].

Ltac preserves_with leaf := preserves_steps fail leaf.

Ltac deaths_steps :=
  preserves_steps
    ltac:(idtac;
          lazymatch goal with
          | |- preserves deaths_grow (bind (getitem _ "deaths") _) =>
              apply preserves_increment_deaths
          end)
    ltac:(apply preserves_setitem_deaths; discriminate).

(** ** The action step *)

Lemma handle_action_writes player action_type hit opponent_visible :
  preserves (only_writes (λ r a, r = player ∧ a ∈ actor_attrs))
    (handle_action player action_type hit opponent_visible).
Proof.
  unfold handle_action.
  preserves_with ltac:(apply preserves_setitem_writes; split; [reflexivity | compute_done]).
Qed.

Lemma handle_action_deaths player action_type hit opponent_visible :
  preserves deaths_grow (handle_action player action_type hit opponent_visible).
Proof. unfold handle_action. deaths_steps. Qed.

(** The base damage is 0, 5 or 10. *)
Lemma handle_action_damage player action_type hit opponent_visible e d e' :
  handle_action player action_type hit opponent_visible e = (Ok d, e') →
  d = 0 ∨ d = 5 ∨ d = 10.
Proof.
  unfold handle_action. intros H.
  repeat first
    [ inv_run_step; subst
    | match goal with
      | H : (if ?b then _ else _) _ = (Ok _, _) |- _ => destruct b
      end ];
    try destruct (truthy _); auto.
Qed.

(** No test of the chain fires on an action type outside the vocabulary. *)
Lemma eq_str_outside action_type s :
  action_type ∉ VStr <$> vocabulary → s ∈ vocabulary →
  eq_str action_type s = false.
Proof.
  intros Hout Hin. destruct action_type as [| |?|s']; simpl; trivial.
  destruct (String.eqb_spec s' s) as [->|]; [|reflexivity].
  destruct Hout. apply list_elem_of_fmap. eauto.
Qed.

(** ** Rain damage *)

Lemma handle_rain_damage_Ok rain vis d e d' e' :
  handle_rain_damage rain vis d e = (Ok d', e') ↔
  ∃ c, as_int rain = Some c
       ∧ d' = (if (0 <? c) && truthy vis then d + 5 * c else d) ∧ e' = e.
Proof.
  unfold handle_rain_damage. split.
  - intros H. apply bind_Ok in H as (b & e1 & (c & Hc & -> & ->)%gt_Ok & H).
    exists c. split; [trivial|].
    destruct (_ && _); inv_run; split; congruence.
  - intros (c & Hc & -> & ->).
    erewrite bind_run by (apply gt_Ok; eauto).
    destruct (_ && _); [|reflexivity].
    erewrite bind_run by (apply of_option_Ok; eauto). reflexivity.
Qed.

Lemma handle_rain_damage_preserves R `{!PreOrder R} rain vis d :
  preserves R (handle_rain_damage rain vis d).
Proof. unfold handle_rain_damage. preserves_with idtac. Qed.

(** ** The shield step *)

Lemma getitem_num r a e n :
  num e r a = Some n → ∃ v, getitem r a e = (Ok v, e) ∧ as_int v = Some n.
Proof.
  intros (v & Hv & Hn)%num_Some. exists v. split; [|trivial].
  now apply getitem_Ok.
Qed.

Lemma apply_shield_damage_run opponent d e s :
  num e opponent "shield_hp" = Some s →
  apply_shield_damage opponent d e =
    if 0 <? s then
      if 0 <? d then
        (Ok (Z.min d s, d - Z.min d s),
         set_attr opponent "shield_hp" (VInt (s - Z.min d s)) e)
      else (Ok (0, d), e)
    else (Ok (0, d), set_attr opponent "shield_hp" (VInt 0) e).
Proof.
  intros (v & Hget & Hs)%getitem_num. unfold apply_shield_damage.
  rewrite (bind_run _ _ _ _ _ Hget).
  erewrite bind_run by (apply gt_Ok; eauto).
  destruct (0 <? s); [|reflexivity].
  destruct (0 <? d); [|reflexivity].
  erewrite bind_run by (apply of_option_Ok; eauto).
  erewrite bind_run by (apply sub_Ok; eauto).
  reflexivity.
Qed.

Lemma apply_shield_damage_numeric opponent d e x e' :
  apply_shield_damage opponent d e = (Ok x, e') →
  is_Some (num e opponent "shield_hp").
Proof.
  unfold apply_shield_damage. intros H.
  apply bind_Ok in H as (v & e1 & [Hv ->]%getitem_Ok & H).
  apply bind_Ok in H as (b & e1 & (s & Hs & _)%gt_Ok & _).
  exists s. apply num_Some. eauto.
Qed.

Lemma apply_shield_damage_writes opponent d :
  preserves (only_writes (λ r a, r = opponent ∧ a = "shield_hp"%string))
    (apply_shield_damage opponent d).
Proof.
  unfold apply_shield_damage.
  preserves_with ltac:(now apply preserves_setitem_writes).
Qed.

Lemma apply_shield_damage_deaths opponent d :
  preserves deaths_grow (apply_shield_damage opponent d).
Proof. unfold apply_shield_damage. deaths_steps. Qed.

(** ** The HP step and the rebirth *)

Lemma deduct_hp_run opponent d e h :
  num e opponent "hp" = Some h →
  deduct_hp opponent d e = (Ok tt, set_attr opponent "hp" (VInt (h - d)) e).
Proof.
  intros (v & Hget & Hh)%getitem_num. unfold deduct_hp.
  rewrite (bind_run _ _ _ _ _ Hget).
  erewrite bind_run by (apply sub_Ok; eauto).
  reflexivity.
Qed.

Lemma respawn_run opponent e n :
  num e opponent "deaths" = Some n →
  respawn opponent e = (Ok tt, respawned opponent n e).
Proof.
  intros Hn. unfold respawn.
  erewrite bind_run by reflexivity.
  assert (num (set_attr opponent "hp" (VInt 100) e) opponent "deaths" = Some n)
    as (v & Hget & Hv)%getitem_num
    by (rewrite num_set_attr_ne; [trivial | now right]).
  rewrite (bind_run _ _ _ _ _ Hget).
  erewrite bind_run by (apply add_Ok; eauto).
  reflexivity.
Qed.

Lemma apply_hp_damage_idle opponent d e :
  d ≤ 0 → apply_hp_damage opponent d e = (Ok tt, e).
Proof.
  intros Hd. unfold apply_hp_damage.
  destruct (Z.ltb_spec 0 d); [lia | reflexivity].
Qed.

Lemma apply_hp_damage_alive opponent d e h :
  0 < d → num e opponent "hp" = Some h → 0 < h - d →
  apply_hp_damage opponent d e
  = (Ok tt, set_attr opponent "hp" (VInt (h - d)) e).
Proof.
  intros Hd Hh Hpos. unfold apply_hp_damage.
  destruct (Z.ltb_spec 0 d); [|lia].
  rewrite (bind_run _ _ _ _ _ (deduct_hp_run _ d _ _ Hh)).
  erewrite bind_run by (apply getitem_Ok; split; [apply attr_set_attr_eq | reflexivity]).
  erewrite bind_run by (apply le_Ok; eexists; split; [reflexivity | eauto]).
  destruct (Z.leb_spec (h - d) 0); [lia | reflexivity].
Qed.

Lemma apply_hp_damage_dead opponent d e h n :
  0 < d → num e opponent "hp" = Some h → h - d ≤ 0 →
  num e opponent "deaths" = Some n →
  apply_hp_damage opponent d e
  = (Ok tt, respawned opponent n (set_attr opponent "hp" (VInt (h - d)) e)).
Proof.
  intros Hd Hh Hneg Hn. unfold apply_hp_damage.
  destruct (Z.ltb_spec 0 d); [|lia].
  rewrite (bind_run _ _ _ _ _ (deduct_hp_run _ d _ _ Hh)).
  erewrite bind_run by (apply getitem_Ok; split; [apply attr_set_attr_eq | reflexivity]).
  erewrite bind_run by (apply le_Ok; eexists; split; [reflexivity | eauto]).
  destruct (Z.leb_spec (h - d) 0); [|lia].
  apply respawn_run. rewrite num_set_attr_ne; [trivial | now right].
Qed.

(** A normal return of the HP step shows which numbers were there. *)
Lemma apply_hp_damage_numeric opponent d e u e' :
  apply_hp_damage opponent d e = (Ok u, e') → 0 < d →
  ∃ h, num e opponent "hp" = Some h
       ∧ (h - d ≤ 0 → is_Some (num e opponent "deaths")).
Proof.
  unfold apply_hp_damage. intros H Hd.
  destruct (Z.ltb_spec 0 d); [|lia].
  apply bind_Ok in H as (? & e1 & Hded & H). unfold deduct_hp in Hded.
  apply bind_Ok in Hded as (v & ? & [Hv ->]%getitem_Ok & Hded).
  apply bind_Ok in Hded as (w & ? & (h & Hh & -> & ->)%sub_Ok & ->%setitem_Ok).
  exists h. split; [apply num_Some; eauto|]. intros Hneg.
  apply bind_Ok in H as (hp & ? & [Hhp ->]%getitem_Ok & H).
  rewrite attr_set_attr_eq in Hhp. injection Hhp as <-.
  apply bind_Ok in H as (b & ? & (h' & [= <-] & -> & ->)%le_Ok & H).
  destruct (Z.leb_spec (h - d) 0); [|lia]. unfold respawn in H.
  apply bind_Ok in H as (? & ? & ->%setitem_Ok & H).
  apply bind_Ok in H as (dv & ? & [Hdv ->]%getitem_Ok & H).
  apply bind_Ok in H as (? & ? & (n & Hn & _)%add_Ok & _).
  rewrite !attr_set_attr_ne in Hdv by (now right).
  exists n. apply num_Some. eauto.
Qed.

Lemma apply_hp_damage_writes opponent d :
  preserves (only_writes (λ r a, r = opponent ∧ a ∈ respawn_attrs))
    (apply_hp_damage opponent d).
Proof.
  unfold apply_hp_damage, deduct_hp, respawn.
  preserves_with ltac:(apply preserves_setitem_writes; split; [reflexivity | compute_done]).
Qed.

Lemma apply_hp_damage_deaths opponent d :
  preserves deaths_grow (apply_hp_damage opponent d).
Proof.
  unfold apply_hp_damage, deduct_hp, respawn. deaths_steps.
Qed.

(** ** Finding the two players *)

Lemma game_state_getitem_Ok key e r e' :
  game_state_getitem key e = (Ok r, e') ↔ key = key_of r ∧ e' = e.
Proof.
  unfold game_state_getitem. repeat case_decide; subst; unfold ret, raise;
    destruct r; simpl; split; try (intros [= <-]); try (intros [? ->]);
    try split; try congruence; auto.
Qed.

Lemma game_state_getitem_key r e : game_state_getitem (key_of r) e = (Ok r, e).
Proof. now apply game_state_getitem_Ok. Qed.

Lemma opponent_key_of_key r : opponent_key_of (key_of r) = key_of (other r).
Proof. now destruct r. Qed.

Lemma other_ne r : other r ≠ r.
Proof. now destruct r. Qed.

Lemma key_of_inj r r' : key_of r = key_of r' → r = r'.
Proof. now destruct r, r'. Qed.

(** ** The damage total *)

Lemma compute_damage_Ok player_id action_type data e opponent total e1 :
  compute_damage player_id action_type data e = (Ok (opponent, total), e1) ↔
  ∃ player base,
    player_key_of player_id = key_of player ∧ opponent = other player
    ∧ let visible := default (VBool false) (attr e player "opponent_visible") in
      let rain := default (VInt 0) (attr e player "opponent_in_rain_bomb") in
      handle_action player action_type (default (VBool false) (ev_hit data))
        visible e = (Ok base, e1)
      ∧ handle_rain_damage rain visible base e1 = (Ok total, e1).
Proof.
  unfold compute_damage. split.
  - intros H.
    apply bind_Ok in H as (player & ? & [Hkey ->]%game_state_getitem_Ok & H).
    apply bind_Ok in H as (opp & ? & [Hopp ->]%game_state_getitem_Ok & H).
    rewrite Hkey, opponent_key_of_key in Hopp. apply key_of_inj in Hopp as <-.
    apply bind_Ok in H as (vis & ? & [-> ->]%get_Ok & H).
    apply bind_Ok in H as (rain & ? & [-> ->]%get_Ok & H).
    apply bind_Ok in H as (base & e1' & Hact & H).
    apply bind_Ok in H as (total' & e2 & Hrain & [[= -> ->] ->]%ret_Ok).
    pose proof Hrain as (c & _ & _ & ->)%handle_rain_damage_Ok.
    exists player, base. auto.
  - intros (player & base & Hkey & -> & Hact & Hrain).
    rewrite Hkey, opponent_key_of_key.
    rewrite (bind_run _ _ _ _ _ (game_state_getitem_key player e)).
    rewrite (bind_run _ _ _ _ _ (game_state_getitem_key (other player) e)).
    erewrite bind_run by reflexivity. erewrite bind_run by reflexivity.
    rewrite (bind_run _ _ _ _ _ Hact). rewrite (bind_run _ _ _ _ _ Hrain).
    reflexivity.
Qed.

(** What a computed damage total tells about the two states. *)
Lemma compute_damage_frame player_id action_type data e opponent total e1 :
  compute_damage player_id action_type data e = (Ok (opponent, total), e1) →
  0 ≤ total
  ∧ same_sinks e e1
  ∧ (∀ a, attr e1 opponent a = attr e opponent a)
  ∧ (∀ r a, a ∉ actor_attrs → attr e1 r a = attr e r a)
  ∧ game_state_getitem (opponent_key_of (player_key_of player_id)) e
    = (Ok opponent, e).
Proof.
  intros (player & base & Hkey & -> & Hact & Hrain)%compute_damage_Ok.
  pose proof (handle_action_writes player action_type
                (default (VBool false) (ev_hit data))
                (default (VBool false) (attr e player "opponent_visible")) e)
    as [Hsinks Hframe].
  rewrite Hact in Hsinks, Hframe. simpl in Hsinks, Hframe.
  apply handle_action_damage in Hact.
  apply handle_rain_damage_Ok in Hrain as (c & _ & -> & _).
  repeat split.
  - destruct (Z.ltb_spec 0 c); simpl; [destruct (truthy _)|]; lia.
  - apply Hsinks.
  - apply Hsinks.
  - intros a. apply Hframe. intros [Heq _]. now apply other_ne in Heq.
  - intros r a Ha. apply Hframe. now intros [_ Hin].
  - rewrite Hkey, opponent_key_of_key. apply game_state_getitem_key.
Qed.

(** ** The whole resolution, when it returns *)

Lemma perform_action_Ok player_id action_type data e u e' :
  perform_action player_id action_type data e = (Ok u, e') →
  ∃ opponent total e1 s e2,
    compute_damage player_id action_type data e = (Ok (opponent, total), e1)
    ∧ num e opponent "shield_hp" = Some s
    ∧ let absorbed := if (0 <? s) && (0 <? total) then Z.min total s else 0 in
      apply_shield_damage opponent total e1
      = (Ok (absorbed, total - absorbed), e2)
      ∧ apply_hp_damage opponent (total - absorbed) e2 = (Ok tt, e').
Proof.
  unfold perform_action. intros H. destruct u.
  apply bind_Ok in H as ([opp total] & e1 & Hcd & H).
  apply bind_Ok in H as ([ds rest] & e2 & Hsh & H). simpl in *.
  destruct (apply_shield_damage_numeric _ _ _ _ _ Hsh) as [s Hs].
  exists opp, total, e1, s, e2. split; [trivial|].
  destruct (compute_damage_frame _ _ _ _ _ _ _ Hcd) as (_ & _ & Hopp & _).
  split; [unfold num in *; now rewrite <- Hopp|].
  rewrite (apply_shield_damage_run _ _ _ _ Hs) in Hsh |- *.
  destruct (0 <? s), (0 <? total); simpl; injection Hsh as <- <- <-;
    rewrite ?Z.sub_0_r; auto.
Qed.

Lemma apply_hp_damage_cases opponent d e u e' :
  apply_hp_damage opponent d e = (Ok u, e') →
  (d ≤ 0 ∧ e' = e)
  ∨ (∃ h, 0 < d ∧ num e opponent "hp" = Some h ∧ 0 < h - d
          ∧ e' = set_attr opponent "hp" (VInt (h - d)) e)
  ∨ (∃ h n, 0 < d ∧ num e opponent "hp" = Some h ∧ h - d ≤ 0
            ∧ num e opponent "deaths" = Some n
            ∧ e' = respawned opponent n (set_attr opponent "hp" (VInt (h - d)) e)).
Proof.
  intros H. destruct (Z.le_gt_cases d 0) as [Hd|Hd].
  - left. rewrite apply_hp_damage_idle in H by trivial. split; congruence.
  - right. destruct (apply_hp_damage_numeric _ _ _ _ _ H Hd) as (h & Hh & Hdeaths).
    destruct (Z.le_gt_cases (h - d) 0) as [Hneg|Hpos].
    + right. destruct (Hdeaths Hneg) as [n Hn]. exists h, n.
      rewrite (apply_hp_damage_dead _ _ _ _ _ Hd Hh Hneg Hn) in H.
      repeat split; trivial; congruence.
    + left. exists h. rewrite (apply_hp_damage_alive _ _ _ _ Hd Hh Hpos) in H.
      repeat split; trivial; congruence.
Qed.

(** The attributes after a rebirth. *)
Lemma respawned_attrs r n e :
  attr (respawned r n e) r "hp" = Some (VInt 100)
  ∧ attr (respawned r n e) r "deaths" = Some (VInt (n + 1))
  ∧ attr (respawned r n e) r "shields" = Some (VInt 3)
  ∧ attr (respawned r n e) r "shield_hp" = Some (VInt 0)
  ∧ attr (respawned r n e) r "bullets" = Some (VInt 6)
  ∧ attr (respawned r n e) r "bombs" = Some (VInt 2).
Proof.
  unfold respawned. repeat split;
    repeat (rewrite attr_set_attr_ne by (right; discriminate));
    apply attr_set_attr_eq.
Qed.

Ltac respawned_facts :=
  match goal with
  | |- context [respawned ?r ?n ?x] =>
      destruct (respawned_attrs r n x)
        as (Hhp & Hdeaths & Hshields & Hshield_hp & Hbullets & Hbombs)
  end.


(** The shield step on a shield that is not negative. *)
Lemma apply_shield_damage_law opponent total e s :
  num e opponent "shield_hp" = Some s → 0 ≤ s → 0 ≤ total →
  ∃ e2,
    apply_shield_damage opponent total e
    = (Ok (Z.min s total, total - Z.min s total), e2)
    ∧ num e2 opponent "shield_hp" = Some (s - Z.min s total)
    ∧ only_writes (λ r a, r = opponent ∧ a = "shield_hp"%string) e e2.
Proof.
  intros Hnum Hs Ht.
  pose proof (apply_shield_damage_writes opponent total e) as Hw.
  rewrite (apply_shield_damage_run _ total _ _ Hnum) in Hw |- *.
  destruct (Z.ltb_spec 0 s); [destruct (Z.ltb_spec 0 total)|]; simpl in Hw.
  - eexists. rewrite (Z.min_comm s total). split; [reflexivity|].
    split; [apply num_set_attr_int | exact Hw].
  - exists e. replace (Z.min s total) with 0 by lia. rewrite !Z.sub_0_r.
    split; [reflexivity|]. split; [exact Hnum | exact Hw].
  - eexists. replace (Z.min s total) with 0 by lia. rewrite Z.sub_0_r.
    split; [reflexivity|].
    replace (s - 0) with 0 by lia. split; [apply num_set_attr_int | exact Hw].
Qed.

(** Where the opponent's shield and HP stand when a resolution over a
    shield that is not negative has returned. *)
Lemma resolution_outcome player_id action_type data e opponent total e1 s h e' :
  compute_damage player_id action_type data e = (Ok (opponent, total), e1) →
  num e opponent "shield_hp" = Some s → 0 ≤ s →
  num e opponent "hp" = Some h →
  perform_action player_id action_type data e = (Ok tt, e') →
  let rest := total - Z.min s total in
  num e' opponent "shield_hp" = Some (s - Z.min s total)
  ∧ num e' opponent "hp"
    = Some (if (0 <? rest) && (h - rest <=? 0) then 100 else h - rest).
Proof.
  intros Hcd Hs Hs0 Hh H rest.
  destruct (compute_damage_frame _ _ _ _ _ _ _ Hcd) as (Ht & _ & Hopp & _).
  assert (num e1 opponent "shield_hp" = Some s) as Hs1
    by (unfold num; now rewrite Hopp).
  destruct (apply_shield_damage_law _ _ _ _ Hs1 Hs0 Ht) as (e2 & Hrun & Hs2 & _ & Hw).
  assert (num e2 opponent "hp" = Some h) as Hh2.
  { unfold num. rewrite Hw, Hopp; [exact Hh | now intros [_ [=]]]. }
  unfold perform_action in H.
  rewrite (bind_run _ _ _ _ _ Hcd) in H. simpl in H.
  rewrite (bind_run _ _ _ _ _ Hrun) in H. simpl in H. fold rest in H.
  assert (0 ≤ rest) as Hrest by (subst rest; lia).
  apply apply_hp_damage_cases in H
    as [[Hd ->]|[(h' & Hd & Hh' & Hpos & ->)|(h' & n & Hd & Hh' & Hneg & Hn & ->)]].
  - split; [exact Hs2|].
    destruct (Z.ltb_spec 0 rest); [lia|]. simpl.
    replace rest with 0 by lia. now rewrite Z.sub_0_r.
  - assert (h' = h) as -> by congruence.
    split; [rewrite num_set_attr_ne; [exact Hs2 | now right]|].
    destruct (Z.ltb_spec 0 rest), (Z.leb_spec (h - rest) 0); try lia.
    simpl. apply num_set_attr_int.
  - assert (h' = h) as -> by congruence. respawned_facts. unfold num. split.
    + rewrite Hshield_hp. simpl. f_equal. subst rest. lia.
    + destruct (Z.ltb_spec 0 rest), (Z.leb_spec (h - rest) 0); try lia.
      simpl. now rewrite Hhp.
Qed.

(** ** What no resolution does *)

Lemma preserves_setitem_sinks r a v : preserves same_sinks (setitem r a v).
Proof. intros e. apply same_sinks_set_attr. Qed.

(** A resolution publishes nothing, whether it returns or raises. *)
Lemma perform_action_sinks player_id action_type data :
  preserves same_sinks (perform_action player_id action_type data).
Proof.
  unfold perform_action, compute_damage, handle_action, handle_rain_damage,
    apply_shield_damage, apply_hp_damage, deduct_hp, respawn.
  preserves_with ltac:(apply preserves_setitem_sinks).
Qed.

(** A resolution lowers no death counter, whether it returns or raises. *)
Lemma perform_action_deaths player_id action_type data :
  preserves deaths_grow (perform_action player_id action_type data).
Proof.
  unfold perform_action, compute_damage.
  preserves_with idtac.
  - apply handle_action_deaths.
  - apply (handle_rain_damage_preserves deaths_grow).
  - apply apply_shield_damage_deaths.
  - apply apply_hp_damage_deaths.
Qed.

(** Past the damage total, only the opponent is written. *)
Lemma perform_action_after_damage player_id action_type data e opponent total e1 :
  compute_damage player_id action_type data e = (Ok (opponent, total), e1) →
  perform_action player_id action_type data e
  = (sd <- apply_shield_damage opponent total ;; apply_hp_damage opponent sd.2) e1.
Proof. intros Hcd. unfold perform_action. now rewrite (bind_run _ _ _ _ _ Hcd). Qed.

Lemma damage_steps_writes opponent total :
  preserves (only_writes (λ r a, r = opponent ∧ a ∈ respawn_attrs))
    (sd <- apply_shield_damage opponent total ;; apply_hp_damage opponent sd.2).
Proof.
  apply (preserves_bind _); [|intros sd; apply apply_hp_damage_writes].
  eapply preserves_weaken; [|apply apply_shield_damage_writes].
  intros e e'. apply only_writes_mono. intros r a [-> ->]. split; [trivial|compute_done].
Qed.

(** ** Resolutions that cannot raise *)



(** The opponent that a returned resolution has worked on, and what its
    two damage steps did. *)
Lemma perform_action_opponent player_id action_type data e e' opponent :
  perform_action player_id action_type data e = (Ok tt, e') →
  game_state_getitem (opponent_key_of (player_key_of player_id)) e
  = (Ok opponent, e) →
  ∃ total e1 s e2,
    0 ≤ total
    ∧ (∀ a, attr e1 opponent a = attr e opponent a)
    ∧ num e opponent "shield_hp" = Some s
    ∧ apply_shield_damage opponent total e1
      = (Ok (if (0 <? s) && (0 <? total) then Z.min total s else 0,
             total - (if (0 <? s) && (0 <? total) then Z.min total s else 0)),
         e2)
    ∧ only_writes (λ r a, r = opponent ∧ a = "shield_hp"%string) e1 e2
    ∧ apply_hp_damage opponent
        (total - (if (0 <? s) && (0 <? total) then Z.min total s else 0)) e2
      = (Ok tt, e').
Proof.
  intros Hrun Hopp.
  apply perform_action_Ok in Hrun as (opp & total & e1 & s & e2 & Hcd & Hs & Hsh & Hhp).
  destruct (compute_damage_frame _ _ _ _ _ _ _ Hcd) as (Ht & _ & Hsame & _ & Hopp').
  assert (opp = opponent) as -> by congruence.
  exists total, e1, s, e2. repeat split; trivial.
  - pose proof (apply_shield_damage_writes opponent total e1) as [Hw _].
    rewrite Hsh in Hw. apply Hw.
  - pose proof (apply_shield_damage_writes opponent total e1) as [Hw _].
    rewrite Hsh in Hw. apply Hw.
  - pose proof (apply_shield_damage_writes opponent total e1) as [_ Hw].
    rewrite Hsh in Hw. apply Hw.
Qed.

(** ** Well-typed states stay well typed *)

Global Instance typed_step_preorder : PreOrder typed_step.
Proof.
  split.
  - intros e H. exact H.
  - intros e1 e2 e3 H12 H23 H. apply H23, H12, H.
Qed.



(** The continuation need only be followed from the values that the first
    computation can return. *)
Lemma preserves_bind_val R `{!PreOrder R} {A B} (Q : A → Prop)
    (m : M A) (k : A → M B) :
  preserves R m → (∀ e a e1, m e = (Ok a, e1) → Q a) →
  (∀ a, Q a → preserves R (k a)) → preserves R (bind m k).
Proof.
  intros Hm HQ Hk e. unfold bind. specialize (Hm e). specialize (HQ e).
  destruct (m e) as [[a|err] e1]; simpl in *; trivial.
  transitivity e1; [trivial | apply Hk; eauto].
Qed.



(** ** The shield past the shield step *)

(** Up to the damage total only the actor is written, whether the total is
    reached or an exception comes first. *)
Lemma compute_damage_writes player_id action_type data player :
  player_key_of player_id = key_of player →
  preserves (only_writes (λ r a, r = player ∧ a ∈ actor_attrs))
    (compute_damage player_id action_type data).
Proof.
  intros Hkey. unfold compute_damage.
  apply (preserves_bind_val _ (λ r, r = player)).
  - apply (preserves_game_state_getitem _).
  - intros e r e1 [Hr _]%game_state_getitem_Ok.
    rewrite Hkey in Hr. now apply key_of_inj in Hr.
  - intros r ->. preserves_steps fail idtac.
    + apply handle_action_writes.
    + apply (handle_rain_damage_preserves _).
Qed.

Global Instance shield_kept_or_cleared_preorder r :
  PreOrder (shield_kept_or_cleared r).
Proof.
  split.
  - intros e. now left.
  - intros e1 e2 e3 [H12|H12] [H23|H23]; unfold shield_kept_or_cleared;
      [left | right | right | right]; congruence.
Qed.

Lemma preserves_setitem_shield_kept r r' a v :
  a ≠ "shield_hp"%string →
  preserves (shield_kept_or_cleared r) (setitem r' a v).
Proof. intros Ha e. left. simpl. apply attr_set_attr_ne. now right. Qed.

Lemma preserves_setitem_shield_cleared r r' :
  preserves (shield_kept_or_cleared r) (setitem r' "shield_hp" (VInt 0)).
Proof.
  intros e. simpl. destruct (decide (r' = r)) as [->|Hne].
  - right. apply attr_set_attr_eq.
  - left. apply attr_set_attr_ne. now left.
Qed.

(** The HP step, returning or raising, leaves the shield or clears it. *)
Lemma apply_hp_damage_shield r opponent damage :
  preserves (shield_kept_or_cleared r) (apply_hp_damage opponent damage).
Proof.
  unfold apply_hp_damage, deduct_hp, respawn.
  preserves_with ltac:(first [ apply preserves_setitem_shield_cleared
                             | apply preserves_setitem_shield_kept; discriminate ]).
Qed.

(** ** The merge *)

Lemma update_internal_game_state_run incoming e :
  update_internal_game_state incoming e
  = (Ok tt, merged_player P2 (incoming !! "p2"%string)
              (merged_player P1 (incoming !! "p1"%string) e)).
Proof.
  unfold update_internal_game_state. simpl.
  destruct (incoming !! "p1"%string) as [d1|],
           (incoming !! "p2"%string) as [d2|]; reflexivity.
Qed.

Lemma deref_merged_player r partial e r' :
  deref r' (game_state (merged_player r partial e))
  = match partial with
    | Some d => if decide (r = r') then d ∪ deref r' (game_state e)
                else deref r' (game_state e)
    | None => deref r' (game_state e)
    end.
Proof. destruct partial as [d|]; [|reflexivity]. now destruct r, r'. Qed.

Lemma same_sinks_merged_player r partial e : same_sinks e (merged_player r partial e).
Proof. destruct partial; [apply same_sinks_merge_attrs | reflexivity]. Qed.

Lemma update_internal_game_state_deref incoming e r :
  deref r (game_state (update_internal_game_state incoming e).2)
  = match incoming !! key_of r with
    | Some d => d ∪ deref r (game_state e)
    | None => deref r (game_state e)
    end.
Proof.
  rewrite update_internal_game_state_run. simpl.
  rewrite !deref_merged_player.
  destruct r; simpl;
    destruct (incoming !! "p1"%string), (incoming !! "p2"%string); reflexivity.
Qed.

Lemma update_internal_game_state_attr incoming e r a :
  attr (update_internal_game_state incoming e).2 r a
  = match incoming !! key_of r ≫= (.!! a) with
    | Some v => Some v
    | None => attr e r a
    end.
Proof.
  unfold attr. rewrite update_internal_game_state_deref.
  destruct (incoming !! key_of r) as [d|]; simpl; [|reflexivity].
  rewrite lookup_union. destruct (d !! a), (_ !! a); reflexivity.
Qed.

Lemma update_internal_game_state_sinks incoming e :
  same_sinks e (update_internal_game_state incoming e).2.
Proof.
  rewrite update_internal_game_state_run. simpl.
  etransitivity; apply same_sinks_merged_player.
Qed.

(** ** The scenarios of the specification, run *)

(** Scenario A: P1 fires a gun that hits, P2 has no shield. *)
Example scenario_A :
  let e' := (perform_action (VInt 1) (VStr "gun")
               (action_event (VInt 1) (VStr "gun") (Some (VBool true))) init).2 in
  attr e' P2 "hp" = Some (VInt 95) ∧ attr e' P1 "bullets" = Some (VInt 5).
Proof. split; vm_compute; reflexivity. Qed.

(** Scenario B: P2 has 10 shield points and P1 throws a bomb at it. *)
Example scenario_B :
  let e' := (perform_action (VInt 1) (VStr "bomb")
               (action_event (VInt 1) (VStr "bomb") None) shielded_opponent).2 in
  attr e' P2 "shield_hp" = Some (VInt 5) ∧ attr e' P2 "hp" = Some (VInt 100).
Proof. split; vm_compute; reflexivity. Qed.

(** Scenario C: a hit takes P2 from 5 HP to exactly 0. *)
Example scenario_C :
  let e' := (perform_action (VInt 1) (VStr "gun")
               (action_event (VInt 1) (VStr "gun") (Some (VBool true)))
               weak_opponent).2 in
  attr e' P2 "hp" = Some (VInt 100) ∧ attr e' P2 "deaths" = Some (VInt 1)
  ∧ attr e' P2 "shields" = Some (VInt 3) ∧ attr e' P2 "shield_hp" = Some (VInt 0)
  ∧ attr e' P2 "bullets" = Some (VInt 6) ∧ attr e' P2 "bombs" = Some (VInt 2).
Proof. repeat split; vm_compute; reflexivity. Qed.

(** Scenario D: P1 reloads an empty gun while P2 stands in two rain bombs. *)
Example scenario_D :
  let e' := (perform_action (VInt 1) (VStr "reload")
               (action_event (VInt 1) (VStr "reload") None) rainy).2 in
  attr e' P1 "bullets" = Some (VInt 6) ∧ attr e' P2 "hp" = Some (VInt 90).
Proof. split; vm_compute; reflexivity. Qed.

(** Scenario E: neither flag is set; the state is merged and nothing is
    published. *)
Example scenario_E :
  let data :=
    {| ev_update := Some (VBool false); ev_action := Some (VBool false);
       ev_player_id := None; ev_action_type := None; ev_hit := None;
       ev_game_state := Some deaths_reset |} in
  process_message data init
  = (Ok tt, (update_internal_game_state deaths_reset init).2).
Proof. vm_compute. reflexivity. Qed.

(** * The claims *)

(** C1. Shield absorption law.  For every action resolution in which the
    opponent's [shield_hp] is initially at least 0: the shield absorbs
    [min(pre_shield_hp, total_damage)]; the opponent's [shield_hp]
    afterwards is [pre_shield_hp - absorbed], right after the shield step
    and at the end of the resolution; and the opponent's [hp], before any
    rebirth resets it, is [pre_hp - (total_damage - absorbed)]: that is
    what the HP deduction writes when some damage is left, and with no
    damage left the HP step changes nothing.  At the end of the resolution
    the [hp] is that value, or 100 when that value is not positive and some
    damage was left. *)
Theorem shield_absorption_law player_id action_type data e opponent total e1 s h :
  compute_damage player_id action_type data e = (Ok (opponent, total), e1) →
  num e opponent "shield_hp" = Some s → 0 ≤ s →
  num e opponent "hp" = Some h →
  let absorbed := Z.min s total in
  let rest := total - absorbed in
  ∃ e2,
    apply_shield_damage opponent total e1 = (Ok (absorbed, rest), e2)
    ∧ num e2 opponent "shield_hp" = Some (s - absorbed)
    ∧ num e2 opponent "hp" = Some h
    ∧ 0 ≤ rest
    ∧ (0 < rest →
       ∃ e3, deduct_hp opponent rest e2 = (Ok tt, e3)
             ∧ num e3 opponent "hp" = Some (h - rest)
             ∧ num e3 opponent "shield_hp" = Some (s - absorbed))
    ∧ (rest = 0 → apply_hp_damage opponent rest e2 = (Ok tt, e2))
    ∧ ∀ e', perform_action player_id action_type data e = (Ok tt, e') →
            num e' opponent "shield_hp" = Some (s - absorbed)
            ∧ num e' opponent "hp"
              = Some (if (0 <? rest) && (h - rest <=? 0) then 100 else h - rest).
Proof.
  intros Hcd Hs Hs0 Hh absorbed rest.
  destruct (compute_damage_frame _ _ _ _ _ _ _ Hcd) as (Ht & _ & Hopp & _).
  assert (num e1 opponent "shield_hp" = Some s) as Hs1
    by (unfold num; now rewrite Hopp).
  destruct (apply_shield_damage_law _ _ _ _ Hs1 Hs0 Ht) as (e2 & Hrun & Hs2 & _ & Hw).
  assert (num e2 opponent "hp" = Some h) as Hh2.
  { unfold num. rewrite Hw, Hopp; [exact Hh | now intros [_ [=]]]. }
  assert (0 ≤ rest) as Hrest by (subst rest absorbed; lia).
  exists e2. split; [exact Hrun|]. split; [exact Hs2|]. split; [exact Hh2|].
  split; [exact Hrest|]. split; [|split].
  - intros Hpos. eexists. split; [apply (deduct_hp_run _ _ _ _ Hh2)|].
    split; [apply num_set_attr_int|].
    rewrite num_set_attr_ne; [exact Hs2 | now right].
  - intros ->. now apply apply_hp_damage_idle.
  - intros e' H. exact (resolution_outcome _ _ _ _ _ _ _ _ _ _ Hcd Hs Hs0 Hh H).
Qed.

Lemma shield_absorption_law_witness :
  let data := action_event (VInt 1) (VStr "bomb") None in
  let e1 := set_attr P1 "bombs" (VInt 1) shielded_opponent in
  compute_damage (VInt 1) (VStr "bomb") data shielded_opponent = (Ok (P2, 5), e1)
  ∧ num shielded_opponent P2 "shield_hp" = Some 10 ∧ 0 ≤ 10
  ∧ num shielded_opponent P2 "hp" = Some 100
  ∧ ∃ e2, apply_shield_damage P2 5 e1 = (Ok (5, 0), e2)
          ∧ num e2 P2 "shield_hp" = Some 5
          ∧ num e2 P2 "hp" = Some 100.
Proof.
  intros data e1.
  assert (compute_damage (VInt 1) (VStr "bomb") data shielded_opponent
          = (Ok (P2, 5), e1)) as Hcd by (vm_compute; reflexivity).
  assert (num shielded_opponent P2 "shield_hp" = Some 10) as Hs
    by (vm_compute; reflexivity).
  assert (0 ≤ 10) as Hs0 by lia.
  assert (num shielded_opponent P2 "hp" = Some 100) as Hh
    by (vm_compute; reflexivity).
  repeat split; trivial.
  destruct (shield_absorption_law _ _ _ _ _ _ _ _ _ Hcd Hs Hs0 Hh)
    as (e2 & Hrun & Hs2 & Hh2 & _).
  exists e2. auto.
Defined.




(** C7. State merge.  For every current state and every partial incoming
    state, the merge returns normally, publishes nothing, and overwrites
    exactly the attributes present in the incoming data: an attribute of
    player [r] reads the incoming value when the incoming data has the
    player's key and, under it, the attribute, and its previous value
    otherwise; the dictionary of a player whose key is absent from the
    incoming data is left as it was, and the one of a player whose key is
    present is the per-field merge of the two, not a replacement. *)
Theorem merge_overwrites_exactly_what_is_present
    (incoming : gmap string Player) e r a :
  let e' := (update_internal_game_state incoming e).2 in
  (update_internal_game_state incoming e).1 = Ok tt
  ∧ same_sinks e e'
  ∧ attr e' r a = match incoming !! key_of r ≫= (.!! a) with
                  | Some v => Some v
                  | None => attr e r a
                  end
  ∧ deref r (game_state e')
    = match incoming !! key_of r with
      | Some partial => partial ∪ deref r (game_state e)
      | None => deref r (game_state e)
      end.
Proof.
  split; [now rewrite update_internal_game_state_run|].
  split; [apply update_internal_game_state_sinks|].
  split; [apply update_internal_game_state_attr|].
  apply update_internal_game_state_deref.
Qed.








(** C6, as stated, fails: an action type outside the vocabulary is still
    followed by the rain damage, so the resolution is no no-op.  Player 1
    sees player 2 inside two rain bombs; the unknown action costs player 2
    ten HP. *)
Lemma unrecognized_action_still_hurts :
  let data := action_event (VInt 1) (VStr "dance") None in
  (VStr "dance" ∉ VStr <$> vocabulary)
  ∧ attr rainy P2 "hp" = Some (VInt 100)
  ∧ (perform_action (VInt 1) (VStr "dance") data rainy).1 = Ok tt
  ∧ attr (perform_action (VInt 1) (VStr "dance") data rainy).2 P2 "hp"
    = Some (VInt 90).
Proof.
  split; [compute_done|]. repeat split; vm_compute; reflexivity.
Qed.

(** C6, amended.  For an action type outside the vocabulary the action
    step has base damage 0, changes no state and raises no error, so the
    state in which the damage total is known is the state before the
    resolution.  The rain damage of the actor's counter is still applied;
    when there is none (the counter is not positive or the opponent is not
    seen) and the opponent's [shield_hp] is an integer that is not
    negative, the whole resolution is a no-op. *)
Theorem unrecognized_action_is_ignored player_id action_type data e :
  action_type ∉ VStr <$> vocabulary →
  (∀ player hit visible,
      handle_action player action_type hit visible e = (Ok 0, e))
  ∧ (∀ opponent total e1,
      compute_damage player_id action_type data e = (Ok (opponent, total), e1) →
      e1 = e)
  ∧ (∀ player c s,
      player_key_of player_id = key_of player →
      as_int (default (VInt 0) (attr e player "opponent_in_rain_bomb")) = Some c →
      (0 <? c) && truthy (default (VBool false) (attr e player "opponent_visible"))
      = false →
      attr e (other player) "shield_hp" = Some (VInt s) → 0 ≤ s →
      perform_action player_id action_type data e = (Ok tt, e)).
Proof.
  intros Hout.
  assert (∀ player hit visible,
            handle_action player action_type hit visible e = (Ok 0, e)) as Hact.
  { intros player hit visible. unfold handle_action.
    now rewrite !(eq_str_outside action_type) by (trivial || compute_done). }
  split; [exact Hact|]. split.
  - intros opponent total e1 (player & base & _ & _ & Hrun & _)%compute_damage_Ok.
    rewrite Hact in Hrun. congruence.
  - intros player c s Hkey Hc Hdry Hs Hs0.
    assert (compute_damage player_id action_type data e
            = (Ok (other player, 0), e)) as Hcd.
    { apply compute_damage_Ok. exists player, 0.
      split; [exact Hkey|]. split; [reflexivity|]. split; [apply Hact|].
      apply handle_rain_damage_Ok. exists c. now rewrite Hdry. }
    rewrite (perform_action_after_damage _ _ _ _ _ _ _ Hcd).
    assert (num e (other player) "shield_hp" = Some s) as Hnum
      by (unfold num; now rewrite Hs).
    assert (apply_shield_damage (other player) 0 e = (Ok (0, 0), e)) as Hsh.
    { rewrite (apply_shield_damage_run _ _ _ _ Hnum).
      destruct (Z.ltb_spec 0 s); [reflexivity|].
      assert (s = 0) as -> by lia. now rewrite (set_attr_id _ _ _ _ Hs). }
    rewrite (bind_run _ _ _ _ _ Hsh). now apply apply_hp_damage_idle.
Qed.

Lemma unrecognized_action_is_ignored_witness :
  let data := action_event (VInt 1) (VStr "dance") None in
  (VStr "dance" ∉ VStr <$> vocabulary)
  ∧ handle_action P1 (VStr "dance") (VBool true) (VBool true) rainy = (Ok 0, rainy)
  ∧ perform_action (VInt 1) (VStr "dance") data init = (Ok tt, init).
Proof.
  intros data.
  assert (VStr "dance" ∉ VStr <$> vocabulary) as Hout by compute_done.
  split; [exact Hout|]. split.
  - apply (unrecognized_action_is_ignored (VInt 1) (VStr "dance") data rainy Hout).
  - destruct (unrecognized_action_is_ignored (VInt 1) (VStr "dance") data init Hout)
      as (_ & _ & Hnoop).
    apply (Hnoop P1 0 0); [vm_compute; reflexivity ..| lia].
Defined.

(** C8, as stated, fails: an [hp] that a merge has set to 0 is still 0
    when a resolution that deals no damage has completed. *)
Lemma hp_left_at_zero :
  let data := action_event (VInt 1) (VStr "logout") None in
  attr knocked_out P2 "hp" = Some (VInt 0)
  ∧ (perform_action (VInt 1) (VStr "logout") data knocked_out).1 = Ok tt
  ∧ attr (perform_action (VInt 1) (VStr "logout") data knocked_out).2 P2 "hp"
    = Some (VInt 0).
Proof. repeat split; vm_compute; reflexivity. Qed.

(** C8, amended.  When a resolution has returned, the opponent's [hp],
    which read [h] before, is [h] itself if no damage reached it, or a
    positive value below [h], or exactly 100 after a rebirth (the only case
    in which [deaths] changes, by one), however far below zero the
    deduction went.  So a positive [hp] is positive afterwards, and an [hp]
    that is not positive afterwards was left untouched. *)
Theorem hp_after_resolution player_id action_type data e e' opponent h :
  perform_action player_id action_type data e = (Ok tt, e') →
  game_state_getitem (opponent_key_of (player_key_of player_id)) e
  = (Ok opponent, e) →
  num e opponent "hp" = Some h →
  ∃ h', num e' opponent "hp" = Some h'
        ∧ (0 < h → 0 < h')
        ∧ ((h' = h ∧ attr e' opponent "deaths" = attr e opponent "deaths")
           ∨ (0 < h' < h ∧ attr e' opponent "deaths" = attr e opponent "deaths")
           ∨ (h' = 100
              ∧ ∃ n, num e opponent "deaths" = Some n
                     ∧ attr e' opponent "deaths" = Some (VInt (n + 1)))).
Proof.
  intros Hrun Hopp Hh.
  destruct (perform_action_opponent _ _ _ _ _ _ Hrun Hopp)
    as (total & e1 & s & e2 & Ht & Hsame & Hs & _ & [_ Hw] & Hhp).
  assert (∀ a, a ≠ "shield_hp"%string → attr e2 opponent a = attr e opponent a)
    as Hsame2.
  { intros a Ha. rewrite Hw, Hsame; [reflexivity | now intros [_ ?]]. }
  assert (num e2 opponent "hp" = Some h) as Hh2
    by (unfold num; rewrite Hsame2; [exact Hh | discriminate]).
  apply apply_hp_damage_cases in Hhp
    as [[Hd ->]|[(h2 & Hd & Hh' & Hpos & ->)|(h2 & n & Hd & Hh' & Hneg & Hn & ->)]].
  - exists h. split; [exact Hh2|]. split; [trivial|]. left.
    split; [reflexivity | apply Hsame2; discriminate].
  - assert (h2 = h) as -> by congruence. eexists.
    split; [apply num_set_attr_int|]. split; [lia|]. right; left.
    split; [lia|]. rewrite attr_set_attr_ne by (right; discriminate).
    apply Hsame2; discriminate.
  - respawned_facts. exists 100. unfold num at 1. rewrite Hhp. simpl.
    split; [reflexivity|]. split; [lia|]. right; right.
    split; [reflexivity|]. exists n. split; [|exact Hdeaths].
    unfold num in Hn |- *.
    rewrite Hsame2 in Hn by discriminate. exact Hn.
Qed.

Lemma hp_after_resolution_witness :
  let data := action_event (VInt 1) (VStr "gun") (Some (VBool true)) in
  let e' := (perform_action (VInt 1) (VStr "gun") data weak_opponent).2 in
  (perform_action (VInt 1) (VStr "gun") data weak_opponent = (Ok tt, e')
   ∧ game_state_getitem (opponent_key_of (player_key_of (VInt 1))) weak_opponent
     = (Ok P2, weak_opponent)
   ∧ num weak_opponent P2 "hp" = Some 5)
  ∧ ∃ h', num e' P2 "hp" = Some h' ∧ (0 < 5 → 0 < h').
Proof.
  intros data e'.
  assert (perform_action (VInt 1) (VStr "gun") data weak_opponent = (Ok tt, e'))
    as Hrun by (vm_compute; reflexivity).
  assert (game_state_getitem (opponent_key_of (player_key_of (VInt 1))) weak_opponent
          = (Ok P2, weak_opponent)) as Hopp by (vm_compute; reflexivity).
  assert (num weak_opponent P2 "hp" = Some 5) as Hh by (vm_compute; reflexivity).
  split; [repeat split; assumption|].
  destruct (hp_after_resolution _ _ _ _ _ _ _ Hrun Hopp Hh) as (h' & Hh' & Hpos & _).
  exists h'. split; assumption.
Defined.

(** C9, as stated, fails for the merge: after player 2 has died once, an
    update whose partial state carries [deaths = 0] takes the counter from
    1 back to 0. *)
Lemma merge_lowers_deaths :
  let e := (process_message deadly_strike init).2 in
  num e P2 "deaths" = Some 1
  ∧ (update_internal_game_state deaths_reset e).1 = Ok tt
  ∧ num (update_internal_game_state deaths_reset e).2 P2 "deaths" = Some 0.
Proof. repeat split; vm_compute; reflexivity. Qed.

(** C9, amended.  An action resolution never lowers a player's [deaths],
    whether it returns or raises.  A merge leaves a player's [deaths] as it
    is when the incoming data has no [deaths] entry for that player, and
    otherwise overwrites it with the incoming value, whatever that is. *)
Theorem deaths_lowered_by_no_resolution
    player_id action_type data (incoming : gmap string Player) e r n :
  num e r "deaths" = Some n →
  (∃ n', num (perform_action player_id action_type data e).2 r "deaths" = Some n'
         ∧ n ≤ n')
  ∧ attr (update_internal_game_state incoming e).2 r "deaths"
    = match incoming !! key_of r ≫= (.!! "deaths"%string) with
      | Some v => Some v
      | None => attr e r "deaths"
      end.
Proof.
  intros Hn. split.
  - exact (perform_action_deaths player_id action_type data e r n Hn).
  - apply update_internal_game_state_attr.
Qed.

Lemma deaths_lowered_by_no_resolution_witness :
  let e := (process_message deadly_strike init).2 in
  let data := action_event (VInt 2) (VStr "gun") (Some (VBool true)) in
  num e P2 "deaths" = Some 1
  ∧ ∃ n', num (perform_action (VInt 2) (VStr "gun") data e).2 P2 "deaths" = Some n'
          ∧ 1 ≤ n'.
Proof.
  intros e data.
  assert (num e P2 "deaths" = Some 1) as Hn by (vm_compute; reflexivity).
  split; [exact Hn|].
  exact (proj1 (deaths_lowered_by_no_resolution (VInt 2) (VStr "gun") data ∅ e P2 1 Hn)).
Defined.

(** C10, as stated, fails: a resolution by a valid player that raises
    before the shield step leaves a negative [shield_hp] as it is.  Player
    2's shield is -7 and player 1's rain-bomb counter is a string: the
    logout of player 1 raises [TypeError] at the rain test, and the shield
    is still -7. *)
Lemma shield_stays_negative :
  let data := action_event (VInt 1) (VStr "logout") None in
  let out :=
    perform_action (VInt 1) (VStr "logout") data negative_shield_odd_counter in
  player_key_of (VInt 1) = key_of P1
  ∧ out.1 = Raise TypeError
  ∧ attr out.2 P2 "shield_hp" = Some (VInt (-7)).
Proof. repeat split; vm_compute; reflexivity. Qed.

(** C10, amended.  Shield floor.  For a player id 1 or 2 and an opponent
    whose [shield_hp] holds an integer [s]: if the action step and the rain
    test of the resolution pass without an exception, then after the
    resolution, whether it returns or raises in its HP step, the opponent's
    [shield_hp] is an integer that is not negative; it is exactly 0 if [s]
    was 0 or below, also when the damage total is zero, and it is at most
    [s] if [s] was positive.  If the resolution raises before the shield
    step, the opponent's [shield_hp] is left as it was. *)
Theorem shield_hp_never_negative player_id action_type data e player s :
  player_key_of player_id = key_of player →
  num e (other player) "shield_hp" = Some s →
  let opponent := other player in
  let e' := (perform_action player_id action_type data e).2 in
  match (compute_damage player_id action_type data e).1 with
  | Ok _ =>
      ∃ s', num e' opponent "shield_hp" = Some s'
            ∧ 0 ≤ s'
            ∧ (s ≤ 0 → attr e' opponent "shield_hp" = Some (VInt 0))
            ∧ (0 < s → s' ≤ s)
  | Raise _ => attr e' opponent "shield_hp" = attr e opponent "shield_hp"
  end.
Proof.
  intros Hkey Hs opponent e'. subst e'. unfold perform_action.
  pose proof (compute_damage_writes player_id action_type data player Hkey e)
    as [_ Hframe].
  destruct (compute_damage player_id action_type data e)
    as [[[opp total]|err] e1] eqn:Hcd; simpl in *.
  2:{ rewrite (bind_raise _ _ _ _ _ Hcd). simpl. apply Hframe.
      intros [Heq _]. now apply other_ne in Heq. }
  rewrite (bind_run _ _ _ _ _ Hcd). simpl.
  destruct (compute_damage_frame _ _ _ _ _ _ _ Hcd) as (Ht & _ & Hsame & _).
  assert (opp = opponent) as ->.
  { apply compute_damage_Ok in Hcd as (player' & _ & Hkey' & -> & _).
    rewrite Hkey in Hkey'. now apply key_of_inj in Hkey' as <-. }
  assert (num e1 opponent "shield_hp" = Some s) as Hs1
    by (unfold num; now rewrite Hsame).
  (* the shield right after the shield step *)
  pose proof (apply_shield_damage_run opponent total e1 s Hs1) as Hsh.
  destruct (apply_shield_damage opponent total e1) as [[sd|err] e2] eqn:Hrun;
    [|destruct (0 <? s), (0 <? total); discriminate].
  assert (∃ s2, attr e2 opponent "shield_hp" ≫= as_int = Some s2 ∧ 0 ≤ s2
                ∧ (s ≤ 0 → attr e2 opponent "shield_hp" = Some (VInt 0))
                ∧ (0 < s → s2 ≤ s)) as (s2 & Hs2 & Hpos2 & Hzero2 & Hle2).
  { destruct (Z.ltb_spec 0 s); [destruct (Z.ltb_spec 0 total)|];
      apply (f_equal snd) in Hsh; simpl in Hsh; subst e2.
    - exists (s - Z.min total s). rewrite attr_set_attr_eq. simpl.
      repeat split; lia.
    - exists s. repeat split; trivial; lia.
    - exists 0. rewrite attr_set_attr_eq. repeat split; trivial; lia. }
  rewrite (bind_run _ _ _ _ _ Hrun). simpl.
  (* the HP step leaves it or clears it *)
  destruct (apply_hp_damage_shield opponent opponent sd.2 e2) as [Hkept|Hcleared].
  - unfold num. rewrite Hkept. exists s2. auto.
  - unfold num. rewrite Hcleared. exists 0. simpl. repeat split; trivial; lia.
Qed.

Lemma shield_hp_never_negative_witness :
  let data := action_event (VInt 1) (VStr "logout") None in
  let e' := (perform_action (VInt 1) (VStr "logout") data negative_shield).2 in
  (player_key_of (VInt 1) = key_of P1
   ∧ num negative_shield (other P1) "shield_hp" = Some (-7))
  ∧ ∃ s', num e' P2 "shield_hp" = Some s' ∧ 0 ≤ s'
          ∧ attr e' P2 "shield_hp" = Some (VInt 0).
Proof.
  intros data e'.
  assert (player_key_of (VInt 1) = key_of P1) as Hkey by (vm_compute; reflexivity).
  assert (num negative_shield (other P1) "shield_hp" = Some (-7)) as Hs
    by (vm_compute; reflexivity).
  split; [split; assumption|].
  assert ((compute_damage (VInt 1) (VStr "logout") data negative_shield).1
          = Ok (P2, 0)) as Hcd by (vm_compute; reflexivity).
  pose proof (shield_hp_never_negative (VInt 1) (VStr "logout") data
                negative_shield P1 (-7) Hkey Hs) as H.
  cbv zeta in H. rewrite Hcd in H.
  destruct H as (s' & Hs' & Hpos & Hzero & _).
  exists s'. split; [exact Hs'|]. split; [exact Hpos|]. apply Hzero. lia.
Defined.

(** * Further properties of the engine *)

(** ** The merge *)

Lemma same_sinks_sym e e' : same_sinks e e' → same_sinks e' e.
Proof. intros [Hq Ht]. split; congruence. Qed.

Lemma engine_eq (e e' : GameEngine) :
  (∀ r, deref r (game_state e) = deref r (game_state e')) →
  same_sinks e e' → e = e'.
Proof.
  destruct e as [[d1 d2] q t], e' as [[d1' d2'] q' t'].
  intros Hd [Hq Ht]. simpl in *.
  pose proof (Hd P1) as H1. pose proof (Hd P2) as H2. simpl in *. congruence.
Qed.

Lemma update_internal_game_state_eq incoming incoming' e e' :
  (∀ r, deref r (game_state (update_internal_game_state incoming e).2)
        = deref r (game_state (update_internal_game_state incoming' e').2)) →
  same_sinks e e' →
  update_internal_game_state incoming e = update_internal_game_state incoming' e'.
Proof.
  intros Hd Hs.
  assert ((update_internal_game_state incoming e).2
          = (update_internal_game_state incoming' e').2) as Heq.
  { apply engine_eq; [exact Hd|].
    destruct (update_internal_game_state_sinks incoming e) as [Hq Ht].
    destruct (update_internal_game_state_sinks incoming' e') as [Hq' Ht'].
    destruct Hs as [Hq0 Ht0]. split; congruence. }
  rewrite (update_internal_game_state_run incoming e) in Heq |- *.
  rewrite (update_internal_game_state_run incoming' e') in Heq |- *.
  simpl in Heq. now rewrite Heq.
Qed.

(** X1. Merging the same partial state twice gives what merging it once
    gives. *)
Theorem merge_idempotent (incoming : gmap string Player) e :
  update_internal_game_state incoming (update_internal_game_state incoming e).2
  = update_internal_game_state incoming e.
Proof.
  apply update_internal_game_state_eq.
  - intros r. rewrite !update_internal_game_state_deref.
    destruct (incoming !! key_of r) as [d|]; [|reflexivity].
    now rewrite (assoc_L (∪)), (idemp_L (∪)).
  - apply same_sinks_sym, update_internal_game_state_sinks.
Qed.

(** X2. A partial state that has neither the key ['p1'] nor the key ['p2']
    (the empty one, or one that only names other players) changes nothing
    and raises nothing: other keys are never looked at. *)
Theorem merge_ignores_other_keys (incoming : gmap string Player) e :
  incoming !! "p1"%string = None → incoming !! "p2"%string = None →
  update_internal_game_state incoming e = (Ok tt, e).
Proof.
  intros H1 H2. rewrite update_internal_game_state_run, H1, H2. reflexivity.
Qed.

Lemma merge_ignores_other_keys_witness :
  let incoming : gmap string Player :=
    {[ "p3"%string := {[ "hp"%string := VInt 1 ]} ]} in
  (incoming !! "p1"%string = None ∧ incoming !! "p2"%string = None)
  ∧ update_internal_game_state incoming init = (Ok tt, init).
Proof.
  intros incoming.
  assert (incoming !! "p1"%string = None) as H1 by (vm_compute; reflexivity).
  assert (incoming !! "p2"%string = None) as H2 by (vm_compute; reflexivity).
  split; [split; assumption|].
  exact (merge_ignores_other_keys incoming init H1 H2).
Defined.

(** X3. Two merges in a row are one merge of the two partial states put
    together, the later one on top: per player and per attribute the later
    value wins, then the earlier one, then what the engine had. *)
Theorem merge_composes (earlier later : gmap string Player) e :
  update_internal_game_state later (update_internal_game_state earlier e).2
  = update_internal_game_state (merge_incoming later earlier) e.
Proof.
  apply update_internal_game_state_eq.
  - intros r. rewrite !update_internal_game_state_deref.
    unfold merge_incoming. rewrite lookup_union_with.
    destruct (later !! key_of r) as [dl|], (earlier !! key_of r) as [de|];
      simpl; trivial.
    now rewrite (assoc_L (∪)).
  - apply same_sinks_sym, update_internal_game_state_sinks.
Qed.

(** ** Player ids *)

Lemma pretty_Z_is (n m : Z) : pretty n = pretty m → n = m.
Proof. apply (inj pretty). Qed.

(** X4. The player ids that the resolver can work with are exactly 1 and
    2, given as a number or as the string of that number: for those
    [self.game_state[f'p{player_id}']] finds player 1 resp. player 2, and
    for every other id ([None], [True], 0, 3, ['p1'], ...) it does not. *)
Theorem accepted_player_ids player_id e r :
  game_state_getitem (player_key_of player_id) e = (Ok r, e)
  ↔ ((player_id = VInt 1 ∨ player_id = VStr "1") ∧ r = P1)
    ∨ ((player_id = VInt 2 ∨ player_id = VStr "2") ∧ r = P2).
Proof.
  rewrite game_state_getitem_Ok. unfold player_key_of. split.
  - intros [Hkey _].
    destruct r; [left | right]; (split; [|reflexivity]);
      simpl in Hkey; injection Hkey as Hstr;
      destruct player_id as [|[]|n|s]; simpl in Hstr; try discriminate.
    + left. f_equal. now apply pretty_Z_is.
    + right. now f_equal.
    + left. f_equal. now apply pretty_Z_is.
    + right. now f_equal.
  - intros [[[-> | ->] ->]|[[-> | ->] ->]]; split; reflexivity.
Qed.

(** X5. For a player id whose key is neither ['p1'] nor ['p2'] the
    resolver raises [KeyError] with that key before it has read or written
    anything: the engine is left exactly as it was. *)
Theorem unknown_player_raises_key_error player_id action_type data e :
  player_key_of player_id ≠ "p1"%string →
  player_key_of player_id ≠ "p2"%string →
  perform_action player_id action_type data e
  = (Raise (KeyError (player_key_of player_id)), e).
Proof.
  intros H1 H2. unfold perform_action, compute_damage.
  apply bind_raise, bind_raise. unfold game_state_getitem.
  now rewrite !decide_False.
Qed.

Lemma unknown_player_raises_key_error_witness :
  (player_key_of VNull ≠ "p1"%string ∧ player_key_of VNull ≠ "p2"%string)
  ∧ perform_action VNull (VStr "gun") (action_event VNull (VStr "gun") None) init
    = (Raise (KeyError "pNone"), init).
Proof.
  assert (player_key_of VNull ≠ "p1"%string) as H1 by (vm_compute; discriminate).
  assert (player_key_of VNull ≠ "p2"%string) as H2 by (vm_compute; discriminate).
  split; [split; assumption|].
  exact (unknown_player_raises_key_error VNull (VStr "gun") _ init H1 H2).
Defined.

(** X6. An action event whose player id is unknown is still merged: the
    message handler raises the [KeyError] of the resolver, publishes
    nothing, and leaves the engine in the state after the merge of the
    event's partial game state. *)
Theorem rejected_action_is_still_merged data e :
  let key := player_key_of (default VNull (ev_player_id data)) in
  truthy (default (VBool false) (ev_action data)) = true →
  key ≠ "p1"%string → key ≠ "p2"%string →
  process_message data e
  = (Raise (KeyError key),
     (update_internal_game_state (default ∅ (ev_game_state data)) e).2).
Proof.
  intros key Haction H1 H2. unfold process_message.
  erewrite bind_run by (rewrite update_internal_game_state_run; reflexivity).
  rewrite Haction. apply bind_raise.
  rewrite update_internal_game_state_run. simpl.
  unfold perform_action, compute_damage.
  apply bind_raise, bind_raise. unfold game_state_getitem.
  fold key. now rewrite !decide_False.
Qed.

Lemma rejected_action_is_still_merged_witness :
  let data :=
    {| ev_update := None; ev_action := Some (VBool true);
       ev_player_id := Some (VInt 3); ev_action_type := Some (VStr "gun");
       ev_hit := None; ev_game_state := Some deaths_reset |} in
  (truthy (default (VBool false) (ev_action data)) = true
   ∧ player_key_of (VInt 3) ≠ "p1"%string ∧ player_key_of (VInt 3) ≠ "p2"%string)
  ∧ process_message data init
    = (Raise (KeyError "p3"), (update_internal_game_state deaths_reset init).2).
Proof.
  intros data.
  assert (truthy (default (VBool false) (ev_action data)) = true) as Ha
    by reflexivity.
  assert (player_key_of (VInt 3) ≠ "p1"%string) as H1 by (vm_compute; discriminate).
  assert (player_key_of (VInt 3) ≠ "p2"%string) as H2 by (vm_compute; discriminate).
  split; [repeat split; assumption|].
  exact (rejected_action_is_still_merged data init Ha H1 H2).
Defined.

(** ** The rules of the actions *)

(** X7. Gun.  With [n > 0] bullets a shot costs exactly one bullet,
    whether it hits or not, and deals 5 only when [hit] is true; with no
    bullet left (or a negative count) nothing is written and no damage is
    dealt. *)
Theorem gun_rule player hit opponent_visible e n :
  num e player "bullets" = Some n →
  handle_action player (VStr "gun") hit opponent_visible e
  = if 0 <? n
    then (Ok (if truthy hit then 5 else 0),
          set_attr player "bullets" (VInt (n - 1)) e)
    else (Ok 0, e).
Proof.
  intros (v & Hget & Hn)%getitem_num. unfold handle_action. simpl.
  rewrite (bind_run _ _ _ _ _ Hget).
  erewrite bind_run by (apply gt_Ok; eauto).
  destruct (0 <? n); [|reflexivity].
  erewrite bind_run by (apply sub_Ok; eauto).
  reflexivity.
Qed.

Lemma gun_rule_witness :
  num init P1 "bullets" = Some 6
  ∧ handle_action P1 (VStr "gun") (VBool false) (VBool false) init
    = (Ok 0, set_attr P1 "bullets" (VInt 5) init).
Proof.
  assert (num init P1 "bullets" = Some 6) as Hn by (vm_compute; reflexivity).
  split; [exact Hn|].
  exact (gun_rule P1 (VBool false) (VBool false) init 6 Hn).
Defined.

(** X8. Bomb.  With [n > 0] bombs and the opponent seen, a throw costs
    exactly one bomb and deals 5, whatever [hit] says; with no bomb left or
    the opponent not seen nothing is written and no damage is dealt. *)
Theorem bomb_rule player hit opponent_visible e n :
  num e player "bombs" = Some n →
  handle_action player (VStr "bomb") hit opponent_visible e
  = if (0 <? n) && truthy opponent_visible
    then (Ok 5, set_attr player "bombs" (VInt (n - 1)) e)
    else (Ok 0, e).
Proof.
  intros (v & Hget & Hn)%getitem_num. unfold handle_action. simpl.
  rewrite (bind_run _ _ _ _ _ Hget).
  erewrite bind_run by (apply gt_Ok; eauto).
  destruct (_ && _); [|reflexivity].
  erewrite bind_run by (apply sub_Ok; eauto).
  reflexivity.
Qed.

Lemma bomb_rule_witness :
  num init P2 "bombs" = Some 2
  ∧ handle_action P2 (VStr "bomb") (VBool true) (VBool false) init = (Ok 0, init).
Proof.
  assert (num init P2 "bombs" = Some 2) as Hn by (vm_compute; reflexivity).
  split; [exact Hn|].
  exact (bomb_rule P2 (VBool true) (VBool false) init 2 Hn).
Defined.

(** X9. Reload.  A reload writes 6 bullets when the count is exactly 0
    and is a no-op for every other count, a negative one included; it deals
    no damage of its own. *)
Theorem reload_rule player hit opponent_visible e n :
  num e player "bullets" = Some n →
  handle_action player (VStr "reload") hit opponent_visible e
  = if n =? 0
    then (Ok 0, set_attr player "bullets" (VInt 6) e)
    else (Ok 0, e).
Proof.
  intros (v & Hget & Hn)%getitem_num. unfold handle_action. simpl.
  rewrite (bind_run _ _ _ _ _ Hget). unfold eq_int. rewrite Hn.
  destruct (n =? 0); reflexivity.
Qed.

Lemma reload_rule_witness :
  num init P1 "bullets" = Some 6
  ∧ handle_action P1 (VStr "reload") (VBool false) (VBool true) init = (Ok 0, init).
Proof.
  assert (num init P1 "bullets" = Some 6) as Hn by (vm_compute; reflexivity).
  split; [exact Hn|].
  exact (reload_rule P1 (VBool false) (VBool true) init 6 Hn).
Defined.

(** X10. Shield.  With [n > 0] charges and a [shield_hp] of exactly 0 the
    activation costs one charge and sets [shield_hp] to 30; with no charge
    left, or with a shield still up (or any [shield_hp] other than 0), it
    is a no-op.  It deals no damage of its own. *)
Theorem shield_rule player hit opponent_visible e n s :
  num e player "shields" = Some n →
  num e player "shield_hp" = Some s →
  handle_action player (VStr "shield") hit opponent_visible e
  = if (0 <? n) && (s =? 0)
    then (Ok 0, set_attr player "shield_hp" (VInt 30)
                  (set_attr player "shields" (VInt (n - 1)) e))
    else (Ok 0, e).
Proof.
  intros (v & Hget & Hn)%getitem_num (w & Hget' & Hs)%getitem_num.
  unfold handle_action. simpl.
  rewrite (bind_run _ _ _ _ _ Hget).
  erewrite bind_run by (apply gt_Ok; eauto).
  destruct (0 <? n); [|reflexivity]. simpl.
  rewrite (bind_run _ _ _ _ _ Hget'). unfold eq_int. rewrite Hs.
  destruct (s =? 0); [|reflexivity].
  erewrite bind_run by (apply sub_Ok; eauto).
  reflexivity.
Qed.

Lemma shield_rule_witness :
  (num init P1 "shields" = Some 3 ∧ num init P1 "shield_hp" = Some 0)
  ∧ handle_action P1 (VStr "shield") (VBool false) (VBool false) init
    = (Ok 0, set_attr P1 "shield_hp" (VInt 30)
               (set_attr P1 "shields" (VInt 2) init)).
Proof.
  assert (num init P1 "shields" = Some 3) as Hn by (vm_compute; reflexivity).
  assert (num init P1 "shield_hp" = Some 0) as Hs by (vm_compute; reflexivity).
  split; [split; assumption|].
  exact (shield_rule P1 (VBool false) (VBool false) init 3 0 Hn Hs).
Defined.

(** ** What a resolution leaves alone *)

Lemma perform_action_resolution_writes player_id action_type data player :
  player_key_of player_id = key_of player →
  preserves (only_writes (resolution_writes player))
    (perform_action player_id action_type data).
Proof.
  intros Hkey. unfold perform_action.
  apply (preserves_bind_val _ (λ od, od.1 = other player)).
  - unfold compute_damage.
    apply (preserves_bind_val _ (λ r, r = player)).
    + apply (preserves_game_state_getitem _).
    + intros e r e1 [Hr _]%game_state_getitem_Ok.
      rewrite Hkey in Hr. now apply key_of_inj in Hr.
    + intros r ->. preserves_steps fail idtac.
      * eapply preserves_weaken; [|apply handle_action_writes].
        intros e e'. apply only_writes_mono. intros r' a' Hw. now left.
      * apply (handle_rain_damage_preserves _).
  - intros e [opp total] e1 Hcd. simpl.
    apply compute_damage_Ok in Hcd as (player' & _ & Hkey' & -> & _).
    rewrite Hkey in Hkey'. now apply key_of_inj in Hkey' as <-.
  - intros [opp total] Hopp. simpl in *. subst opp.
    eapply preserves_weaken; [|apply damage_steps_writes].
    intros e e'. apply only_writes_mono. intros r a Hw. now right.
Qed.

(** X11. Whatever the action and whether the resolution returns or
    raises, it publishes nothing, writes on the actor nothing but
    [bullets], [bombs], [shields], [shield_hp] and [login] (so never the
    actor's own [hp] or [deaths]), and on the opponent nothing but [hp],
    [deaths], [shields], [shield_hp], [bullets] and [bombs].  The flags
    [opponent_visible], [opponent_in_rain_bomb] and [disconnected] of both
    players are never written by a resolution. *)
Theorem resolution_frame player_id action_type data e player :
  player_key_of player_id = key_of player →
  let e' := (perform_action player_id action_type data e).2 in
  same_sinks e e'
  ∧ (∀ a, a ∉ actor_attrs → attr e' player a = attr e player a)
  ∧ (∀ a, a ∉ respawn_attrs → attr e' (other player) a = attr e (other player) a).
Proof.
  intros Hkey e'.
  destruct (perform_action_resolution_writes player_id action_type data player
              Hkey e) as [Hsinks Hframe].
  split; [exact Hsinks|]. split; intros a Ha; apply Hframe.
  - intros [[_ Hin]|[Hr _]]; [now apply Ha | symmetry in Hr; now apply other_ne in Hr].
  - intros [[Hr _]|[_ Hin]]; [now apply other_ne in Hr | now apply Ha].
Qed.

Lemma resolution_frame_witness :
  let data := action_event (VInt 1) (VStr "gun") (Some (VBool true)) in
  let e' := (perform_action (VInt 1) (VStr "gun") data weak_opponent).2 in
  player_key_of (VInt 1) = key_of P1
  ∧ attr e' P1 "hp" = attr weak_opponent P1 "hp"
  ∧ attr e' P2 "login" = attr weak_opponent P2 "login".
Proof.
  intros data e'.
  assert (player_key_of (VInt 1) = key_of P1) as Hkey by (vm_compute; reflexivity).
  split; [exact Hkey|].
  destruct (resolution_frame (VInt 1) (VStr "gun") data weak_opponent P1 Hkey)
    as (_ & Hactor & Hopp).
  split; [apply Hactor | apply Hopp]; compute_done.
Defined.

(** ** What holds in every state of the engine *)

Global Instance keys_kept_preorder : PreOrder keys_kept.
Proof.
  split.
  - intros e r a H. exact H.
  - intros e1 e2 e3 H12 H23 r a H. apply H23, H12, H.
Qed.

Lemma preserves_setitem_keys r a v : preserves keys_kept (setitem r a v).
Proof.
  intros e r' a' H. simpl. rewrite attr_set_attr. case_decide; eauto.
Qed.

Lemma perform_action_keys player_id action_type data :
  preserves keys_kept (perform_action player_id action_type data).
Proof.
  unfold perform_action, compute_damage, handle_action, handle_rain_damage,
    apply_shield_damage, apply_hp_damage, deduct_hp, respawn.
  preserves_with ltac:(apply preserves_setitem_keys).
Qed.

Lemma update_internal_game_state_keys incoming :
  preserves keys_kept (update_internal_game_state incoming).
Proof.
  intros e r a H. rewrite update_internal_game_state_attr.
  destruct (_ ≫= _); eauto.
Qed.

(** The message handler keeps every relation that the merge, the
    resolution and the two publications keep. *)
Lemma process_message_preserves R `{!PreOrder R} :
  (∀ incoming, preserves R (update_internal_game_state incoming)) →
  (∀ player_id action_type data,
      preserves R (perform_action player_id action_type data)) →
  (∀ m, preserves R (publish_to_update_eval_server_queue m)) →
  (∀ m, preserves R (mqtt_publish m)) →
  ∀ data, preserves R (process_message data).
Proof.
  intros Hmerge Hact Heval Hmqtt data. unfold process_message.
  apply (preserves_bind R); [apply Hmerge | intros _].
  assert (preserves R snapshot) as Hsnap by (intros e; simpl; reflexivity).
  destruct (truthy _).
  - apply (preserves_bind R); [apply Hact | intros _].
    apply (preserves_bind R); [exact Hsnap | intros gs].
    apply (preserves_bind R); [apply Heval | intros _; apply Hmqtt].
  - destruct (truthy _).
    + apply (preserves_bind R); [exact Hsnap | intros gs; apply Hmqtt].
    + apply (preserves_ret R).
Qed.

Lemma process_message_keys data : preserves keys_kept (process_message data).
Proof.
  apply (process_message_preserves keys_kept).
  - apply update_internal_game_state_keys.
  - apply perform_action_keys.
  - intros m e r a H. exact H.
  - intros m e r a H. exact H.
Qed.

(** X12. No attribute ever disappears: in every state of the engine each
    of the ten attributes that a player starts with is still there, for
    both players, so reading it never raises [KeyError]. *)
Theorem attributes_never_disappear e r a :
  reachable e → a ∈ initial_attrs →
  ∃ v, getitem r a e = (Ok v, e).
Proof.
  intros Hreach Ha.
  enough (is_Some (attr e r a)) as [v Hv] by (exists v; now apply getitem_Ok).
  induction Hreach as [|data e Hreach IH].
  - unfold initial_attrs in Ha.
    repeat (apply elem_of_cons in Ha as [->|Ha]; [destruct r; vm_compute; eauto|]).
    now apply elem_of_nil in Ha.
  - now apply process_message_keys.
Qed.

Lemma attributes_never_disappear_witness :
  let e := (process_message deadly_strike init).2 in
  (reachable e ∧ "deaths"%string ∈ initial_attrs)
  ∧ ∃ v, getitem P2 "deaths" e = (Ok v, e).
Proof.
  intros e.
  assert (reachable e) as Hreach by (apply reachable_step, reachable_init).
  assert ("deaths"%string ∈ initial_attrs) as Ha by compute_done.
  split; [split; assumption|].
  exact (attributes_never_disappear e P2 "deaths" Hreach Ha).
Defined.

(** What one message adds to the two sinks. *)
Lemma process_message_sinks data e :
  let e' := (process_message data e).2 in
  (update_eval_server_queue e' = update_eval_server_queue e
   ∧ update_everyone e' = update_everyone e)
  ∨ (∃ m, msg_action m = None
          ∧ update_eval_server_queue e' = update_eval_server_queue e
          ∧ update_everyone e' = update_everyone e ++ [m])
  ∨ (∃ m, is_Some (msg_action m)
          ∧ update_eval_server_queue e' = update_eval_server_queue e ++ [m]
          ∧ update_everyone e' = update_everyone e ++ [m]).
Proof.
  intros e'. subst e'.
  pose (merged := (update_internal_game_state (default ∅ (ev_game_state data)) e).2).
  destruct (update_internal_game_state_sinks (default ∅ (ev_game_state data)) e)
    as [Hq Ht]. fold merged in Hq, Ht.
  assert (update_internal_game_state (default ∅ (ev_game_state data)) e
          = (Ok tt, merged)) as Hmerge
    by (subst merged; now rewrite update_internal_game_state_run).
  unfold process_message. rewrite (bind_run _ _ _ _ _ Hmerge).
  destruct (truthy (default (VBool false) (ev_action data))).
  - destruct (perform_action_sinks (default VNull (ev_player_id data))
                (default VNull (ev_action_type data)) data merged) as [Hq' Ht'].
    destruct (perform_action _ _ data merged) as [[u|err] e1] eqn:Hres; simpl in *.
    + rewrite (bind_run _ _ _ _ _ Hres). simpl. right; right.
      eexists. split; [|split; f_equal; congruence]. simpl. eauto.
    + rewrite (bind_raise _ _ _ _ _ Hres). simpl. left. split; congruence.
  - destruct (truthy (default (VBool false) (ev_update data))); simpl.
    + right; left. eexists. split; [|split; [|f_equal]; congruence]. reflexivity.
    + left. split; congruence.
Qed.

(** X13. In every state of the engine the evaluation queue has received
    exactly the messages of the broadcast topic that carry an action, in
    the same order: every action message went to both sinks, and a message
    without action went to the broadcast topic only. *)
Theorem evaluation_queue_is_the_action_part e :
  reachable e →
  update_eval_server_queue e
  = filter (λ m, is_Some (msg_action m)) (update_everyone e).
Proof.
  induction 1 as [|data e Hreach IH]; [reflexivity|].
  destruct (process_message_sinks data e)
    as [[-> ->]|[(m & Hm & -> & ->)|(m & Hm & -> & ->)]]; [exact IH|..];
    rewrite filter_app, filter_cons, filter_nil.
  - rewrite decide_False by (rewrite Hm; now intros [? [=]]).
    now rewrite app_nil_r.
  - rewrite decide_True by exact Hm. now rewrite IH.
Qed.

Lemma evaluation_queue_is_the_action_part_witness :
  let e := (process_message deadly_strike init).2 in
  reachable e
  ∧ update_eval_server_queue e
    = filter (λ m, is_Some (msg_action m)) (update_everyone e).
Proof.
  intros e.
  assert (reachable e) as Hreach by (apply reachable_step, reachable_init).
  split; [exact Hreach|].
  exact (evaluation_queue_is_the_action_part e Hreach).
Defined.

(** ** Resources stay in range *)









Global Instance unchanged_preorder : PreOrder unchanged.
Proof. split; [now intros e | intros e1 e2 e3; unfold unchanged; congruence]. Qed.
















(** ** Messages that cannot raise *)





(** ** Exceptions do not roll back *)

(** X17. A shot that raises is still fired.  When the actor's rain-bomb
    counter holds no number, a gun action with [n > 0] bullets raises
    [TypeError] at the rain test, after the bullet has been taken: the
    engine is left with [n - 1] bullets and nothing else changed. *)
Theorem shot_is_not_rolled_back player_id data e player n v :
  player_key_of player_id = key_of player →
  num e player "bullets" = Some n → 0 < n →
  attr e player "opponent_in_rain_bomb" = Some v → as_int v = None →
  perform_action player_id (VStr "gun") data e
  = (Raise TypeError, set_attr player "bullets" (VInt (n - 1)) e).
Proof.
  intros Hkey (b & Hget & Hb)%getitem_num Hn Hv Hnone.
  unfold perform_action, compute_damage.
  rewrite Hkey, opponent_key_of_key.
  apply bind_raise.
  rewrite (bind_run _ _ _ _ _ (game_state_getitem_key player e)).
  rewrite (bind_run _ _ _ _ _ (game_state_getitem_key (other player) e)).
  do 2 erewrite bind_run by reflexivity.
  assert (handle_action player (VStr "gun") (default (VBool false) (ev_hit data))
            (default (VBool false) (attr e player "opponent_visible")) e
          = (Ok (if truthy (default (VBool false) (ev_hit data)) then 5 else 0),
             set_attr player "bullets" (VInt (n - 1)) e)) as Hact.
  { unfold handle_action. simpl. rewrite (bind_run _ _ _ _ _ Hget).
    erewrite bind_run by (apply gt_Ok; eauto).
    destruct (Z.ltb_spec 0 n); [|lia].
    erewrite bind_run by (apply sub_Ok; eauto). reflexivity. }
  rewrite (bind_run _ _ _ _ _ Hact). apply bind_raise.
  unfold handle_rain_damage, gt. rewrite Hv. simpl. rewrite Hnone. reflexivity.
Qed.

Lemma shot_is_not_rolled_back_witness :
  let data := action_event (VInt 1) (VStr "gun") None in
  (player_key_of (VInt 1) = key_of P1
   ∧ num odd_counter P1 "bullets" = Some 6 ∧ 0 < 6
   ∧ attr odd_counter P1 "opponent_in_rain_bomb" = Some (VStr "two")
   ∧ as_int (VStr "two") = None)
  ∧ perform_action (VInt 1) (VStr "gun") data odd_counter
    = (Raise TypeError, set_attr P1 "bullets" (VInt 5) odd_counter).
Proof.
  intros data.
  assert (player_key_of (VInt 1) = key_of P1) as Hkey by (vm_compute; reflexivity).
  assert (num odd_counter P1 "bullets" = Some 6) as Hb by (vm_compute; reflexivity).
  assert (0 < 6) as Hn by lia.
  assert (attr odd_counter P1 "opponent_in_rain_bomb" = Some (VStr "two")) as Hv
    by (vm_compute; reflexivity).
  assert (as_int (VStr "two") = None) as Hnone by reflexivity.
  split; [repeat split; assumption|].
  exact (shot_is_not_rolled_back (VInt 1) data odd_counter P1 6 (VStr "two")
           Hkey Hb Hn Hv Hnone).
Defined.



(** ** The size of the damage *)

(** X19. When the actor's rain-bomb counter holds an integer [c] (or is
    absent, which counts as 0), the damage total of a resolution is the
    damage of the action itself, which is 0, 5 or 10, plus [5 * c] when [c]
    is positive and the opponent is seen: it is never negative, always a
    multiple of 5, and at most 10 when no rain damage applies. *)
Theorem damage_total_shape player_id action_type data e player c
    opponent total e1 :
  player_key_of player_id = key_of player →
  as_int (default (VInt 0) (attr e player "opponent_in_rain_bomb")) = Some c →
  compute_damage player_id action_type data e = (Ok (opponent, total), e1) →
  ∃ base,
    (base = 0 ∨ base = 5 ∨ base = 10)
    ∧ total
      = base + (if (0 <? c)
                   && truthy (default (VBool false)
                                (attr e player "opponent_visible"))
                then 5 * c else 0)
    ∧ 0 ≤ total ∧ (5 | total).
Proof.
  intros Hkey Hc (player' & base & Hkey' & -> & Hact & Hrain)%compute_damage_Ok.
  rewrite Hkey in Hkey'. apply key_of_inj in Hkey' as <-.
  apply handle_action_damage in Hact.
  apply handle_rain_damage_Ok in Hrain as (c' & Hc' & -> & _).
  assert (c' = c) as -> by congruence.
  exists base. split; [exact Hact|].
  destruct (Z.ltb_spec 0 c); simpl; [destruct (truthy _)|];
    (split; [lia|]); (split; [lia|]);
    destruct Hact as [->|[->| ->]];
    try (exists (1 + c); lia); try (exists (2 + c); lia);
    try (exists c; lia); try (exists 0; lia); try (exists 1; lia);
    exists 2; lia.
Qed.

Lemma damage_total_shape_witness :
  let data := action_event (VInt 1) (VStr "reload") None in
  (player_key_of (VInt 1) = key_of P1
   ∧ as_int (default (VInt 0) (attr rainy P1 "opponent_in_rain_bomb")) = Some 2
   ∧ compute_damage (VInt 1) (VStr "reload") data rainy
     = (Ok (P2, 10), set_attr P1 "bullets" (VInt 6) rainy))
  ∧ 0 ≤ 10 ∧ (5 | 10).
Proof.
  intros data.
  assert (player_key_of (VInt 1) = key_of P1) as Hkey by (vm_compute; reflexivity).
  assert (as_int (default (VInt 0) (attr rainy P1 "opponent_in_rain_bomb")) = Some 2)
    as Hc by (vm_compute; reflexivity).
  assert (compute_damage (VInt 1) (VStr "reload") data rainy
          = (Ok (P2, 10), set_attr P1 "bullets" (VInt 6) rainy)) as Hcd
    by (vm_compute; reflexivity).
  split; [repeat split; assumption|].
  destruct (damage_total_shape _ _ _ _ _ _ _ _ _ Hkey Hc Hcd)
    as (_ & _ & _ & Hpos & Hdiv).
  split; assumption.
Defined.

(** ** The two players are treated alike *)

Lemma attr_swap_players e r a : attr (swap_players e) (other r) a = attr e r a.
Proof. now destruct r. Qed.

Lemma set_attr_swap_players e r a v :
  set_attr (other r) a v (swap_players e) = swap_players (set_attr r a v e).
Proof. now destruct r. Qed.

Lemma bind_assoc {A B C} (m : M A) (f : A → M B) (k : B → M C) e :
  bind (bind m f) k e = bind m (λ a, bind (f a) k) e.
Proof. unfold bind. now destruct (m e) as [[a|err] e1]. Qed.

Lemma mirrors_ret {A} (a : A) : mirrors (ret a) (ret a).
Proof. now intros e. Qed.

Lemma mirrors_of_option {A} (o : option A) err :
  mirrors (of_option o err) (of_option o err).
Proof. now destruct o. Qed.

Lemma mirrors_bind {A B} (m m' : M A) (k k' : A → M B) :
  mirrors m m' → (∀ a, mirrors (k a) (k' a)) → mirrors (bind m k) (bind m' k').
Proof.
  intros Hm Hk e. unfold bind. rewrite Hm.
  destruct (m e) as [[a|err] e1]; simpl; [apply Hk | reflexivity].
Qed.

Lemma mirrors_getitem r a : mirrors (getitem r a) (getitem (other r) a).
Proof.
  intros e. unfold getitem. rewrite attr_swap_players.
  now destruct (attr e r a).
Qed.

Lemma mirrors_get r a dflt : mirrors (get r a dflt) (get (other r) a dflt).
Proof. intros e. unfold get. now rewrite attr_swap_players. Qed.

Lemma mirrors_setitem r a v : mirrors (setitem r a v) (setitem (other r) a v).
Proof. intros e. unfold setitem. now rewrite set_attr_swap_players. Qed.

Lemma mirrors_assoc {A B C} (m m' : M A) (f f' : A → M B) (k k' : B → M C) :
  mirrors (bind m (λ a, bind (f a) k)) (bind m' (λ a, bind (f' a) k')) →
  mirrors (bind (bind m f) k) (bind (bind m' f') k').
Proof. intros H e. rewrite !bind_assoc. apply H. Qed.

Lemma mirrors_bind_ret {A B} (x y : A) (k k' : A → M B) :
  mirrors (k x) (k' y) → mirrors (bind (ret x) k) (bind (ret y) k').
Proof. intros H e. apply H. Qed.

Ltac mirrors_steps :=
  repeat (cbv beta; lazymatch goal with
  | |- mirrors (bind (bind _ _) _) (bind (bind _ _) _) => apply mirrors_assoc
  | |- mirrors (bind (ret _) _) (bind (ret _) _) => apply mirrors_bind_ret
  | |- mirrors (bind _ _) (bind _ _) => apply mirrors_bind; [| intros ?]
  | |- mirrors (ret _) (ret _) => apply mirrors_ret
  | |- mirrors (of_option _ _) (of_option _ _) => apply mirrors_of_option
  | |- mirrors (getitem _ _) (getitem _ _) => apply mirrors_getitem
  | |- mirrors (get _ _ _) (get _ _ _) => apply mirrors_get
  | |- mirrors (setitem _ _ _) (setitem _ _ _) => apply mirrors_setitem
  | |- mirrors (if ?b then _ else _) (if ?b then _ else _) => destruct b
  | |- mirrors (let _ := _ in _) _ => cbv zeta
  end).

Lemma mirrors_handle_action r action_type hit opponent_visible :
  mirrors (handle_action r action_type hit opponent_visible)
          (handle_action (other r) action_type hit opponent_visible).
Proof. unfold handle_action, gt, sub. mirrors_steps. Qed.

Lemma mirrors_handle_rain_damage rain visible damage :
  mirrors (handle_rain_damage rain visible damage)
          (handle_rain_damage rain visible damage).
Proof. unfold handle_rain_damage, gt. mirrors_steps. Qed.

Lemma mirrors_apply_shield_damage r damage :
  mirrors (apply_shield_damage r damage) (apply_shield_damage (other r) damage).
Proof. unfold apply_shield_damage, gt, sub. mirrors_steps. Qed.

Lemma mirrors_apply_hp_damage r damage :
  mirrors (apply_hp_damage r damage) (apply_hp_damage (other r) damage).
Proof.
  unfold apply_hp_damage, deduct_hp, respawn, le, sub, add. mirrors_steps.
Qed.

(** X20. The rules treat the two players alike: what a resolution by one
    player does on the engine, the same action by the other player does on
    the engine with the two players exchanged; it returns or raises the
    same, and leaves the same state with the players exchanged. *)
Theorem players_are_treated_alike
    player_id player_id' action_type data e player :
  player_key_of player_id = key_of player →
  player_key_of player_id' = key_of (other player) →
  perform_action player_id' action_type data (swap_players e)
  = ((perform_action player_id action_type data e).1,
     swap_players (perform_action player_id action_type data e).2).
Proof.
  intros Hkey Hkey'. unfold perform_action, compute_damage.
  rewrite Hkey, Hkey', !opponent_key_of_key.
  rewrite !bind_assoc.
  rewrite (bind_run _ _ _ _ _ (game_state_getitem_key player e)).
  rewrite (bind_run _ _ _ _ _
             (game_state_getitem_key (other player) (swap_players e))).
  rewrite !bind_assoc.
  rewrite (bind_run _ _ _ _ _ (game_state_getitem_key (other player) e)).
  rewrite (bind_run _ _ _ _ _
             (game_state_getitem_key (other (other player)) (swap_players e))).
  lazymatch goal with
  | |- ?m' (swap_players e) = ((?m e).1, swap_players (?m e).2) =>
      generalize e; change (mirrors m m')
  end.
  mirrors_steps.
  - apply mirrors_handle_action.
  - apply mirrors_handle_rain_damage.
  - apply mirrors_apply_shield_damage.
  - apply mirrors_apply_hp_damage.
Qed.

Lemma players_are_treated_alike_witness :
  let data := action_event (VInt 1) (VStr "gun") (Some (VBool true)) in
  (player_key_of (VInt 1) = key_of P1 ∧ player_key_of (VInt 2) = key_of (other P1))
  ∧ perform_action (VInt 2) (VStr "gun") data (swap_players weak_opponent)
    = ((perform_action (VInt 1) (VStr "gun") data weak_opponent).1,
       swap_players (perform_action (VInt 1) (VStr "gun") data weak_opponent).2).
Proof.
  intros data.
  assert (player_key_of (VInt 1) = key_of P1) as H1 by (vm_compute; reflexivity).
  assert (player_key_of (VInt 2) = key_of (other P1)) as H2
    by (vm_compute; reflexivity).
  split; [split; assumption|].
  exact (players_are_treated_alike (VInt 1) (VInt 2) (VStr "gun") data
           weak_opponent P1 H1 H2).
Defined.

(** ** What the event's body can influence *)

(** X21. Only a logout touches the session flag: a resolution of any
    other action type, returning or raising, writes nothing but the six
    resources [hp], [deaths], [shields], [shield_hp], [bullets] and
    [bombs]; in particular it leaves [login] of both players as it was. *)
Theorem only_logout_writes_login player_id action_type data e :
  eq_str action_type "logout" = false →
  only_writes (λ _ a, a ∈ respawn_attrs) e
    (perform_action player_id action_type data e).2.
Proof.
  intros Hne. revert e.
  change (preserves (only_writes (λ _ a, a ∈ respawn_attrs))
            (perform_action player_id action_type data)).
  unfold perform_action, compute_damage, handle_action, handle_rain_damage,
    apply_shield_damage, apply_hp_damage, deduct_hp, respawn.
  rewrite Hne.
  preserves_with ltac:(apply preserves_setitem_writes; compute_done).
Qed.

Lemma only_logout_writes_login_witness :
  let data := action_event (VInt 1) (VStr "gun") (Some (VBool true)) in
  eq_str (VStr "gun") "logout" = false
  ∧ attr (perform_action (VInt 1) (VStr "gun") data init).2 P1 "login"
    = attr init P1 "login".
Proof.
  intros data.
  assert (eq_str (VStr "gun") "logout" = false) as Hne by reflexivity.
  split; [exact Hne|].
  destruct (only_logout_writes_login (VInt 1) (VStr "gun") data init Hne)
    as [_ Hframe].
  apply Hframe. compute_done.
Defined.

(** X22. The [hit] flag matters to the gun alone: for every other action
    type the resolution does the same whatever the body of the event holds
    besides the player id and the action type. *)
Theorem only_the_gun_reads_hit player_id action_type data data' e :
  eq_str action_type "gun" = false →
  perform_action player_id action_type data e
  = perform_action player_id action_type data' e.
Proof.
  intros Hne. unfold perform_action, compute_damage, handle_action.
  now rewrite Hne.
Qed.

Lemma only_the_gun_reads_hit_witness :
  eq_str (VStr "bomb") "gun" = false
  ∧ perform_action (VInt 1) (VStr "bomb")
      (action_event (VInt 1) (VStr "bomb") (Some (VBool false))) shielded_opponent
    = perform_action (VInt 1) (VStr "bomb") deadly_strike shielded_opponent.
Proof.
  assert (eq_str (VStr "bomb") "gun" = false) as Hne by reflexivity.
  split; [exact Hne|].
  exact (only_the_gun_reads_hit (VInt 1) (VStr "bomb") _ deadly_strike
           shielded_opponent Hne).
Defined.
